(** * spotify_bot.py: the link validator, the two-phase conversion client
      and the delivery step, embedded and verified.

    The embedding follows [src/spotify_bot.py]:
    - Python [str] values are lists of characters ([pystr]); every character
      the program inspects (the pattern's literals, the separators of
      [str.split]) is ASCII, and a non-ASCII code point behaves like any other
      character outside the class [[a-zA-Z0-9]], as the bytes of its UTF-8
      encoding do here;
    - [re.compile(...).search] is a backtracking matcher over the syntax tree
      of the pattern, with Python's priorities (greedy repetition and option,
      left alternative first, leftmost start);
    - the network, the chat platform and the logger are explicit: calls and
      log lines are appended to a trace, the replies come from oracles, Python
      exceptions are the [Raise] outcome of a state-and-exception monad. *)

From Stdlib Require Import String Ascii List Bool Arith ZArith QArith Lia.
Import ListNotations.
Close Scope Q_scope.
Open Scope list_scope.

#[local] Set Warnings "-register-all".

(** ** Python strings *)

Definition pystr := list ascii.

(** A string literal of the source. *)
Definition L (s : string) : pystr := list_ascii_of_string s.

(** [infix_at pre m s]: [m] occurs in [s] right after the prefix [pre]. *)
Definition infix_at (pre m s : pystr) : Prop := exists post, s = pre ++ m ++ post.

(** ** The regular-expression engine ([re]) *)

Module Re.

(** A character set [[lo1-hi1 lo2-hi2 ...]], as a list of inclusive ranges. *)
Definition charset := list (ascii * ascii).

Definition in_range (c : ascii) (r : ascii * ascii) : bool :=
  (N_of_ascii (fst r) <=? N_of_ascii c)%N && (N_of_ascii c <=? N_of_ascii (snd r))%N.

Definition in_set (cs : charset) (c : ascii) : bool := existsb (in_range c) cs.

(** The fragment of the pattern syntax that [SPOTIFY_URL_PATTERN] uses:
    literals, sequence, alternation [|], greedy option [?] and greedy
    repetition [+] of a character set. *)
Inductive regex : Type :=
| Eps
| Chr (c : ascii)
| Seq (r1 r2 : regex)
| Alt (r1 r2 : regex)
| Opt (r : regex)
| Plus1 (cs : charset).

(** A literal string, character by character. *)
Fixpoint str (s : pystr) : regex :=
  match s with
  | [] => Eps
  | c :: t => Seq (Chr c) (str t)
  end.

(** A sequence of items. *)
Fixpoint seq_of (rs : list regex) : regex :=
  match rs with
  | [] => Eps
  | [r] => r
  | r :: rs' => Seq r (seq_of rs')
  end.

(** Greedy [[cs]+] at the head of [s]: the remainders after one or more
    characters of the set, the longest run first. *)
Fixpoint plus_class (p : ascii -> bool) (s : pystr) : list pystr :=
  match s with
  | c :: t => if p c then plus_class p t ++ [t] else []
  | [] => []
  end.

(** The backtracking matcher: all the ways [r] matches a prefix of [s], as
    the list of the remainders, in the order the engine tries them. *)
Fixpoint run (r : regex) (s : pystr) : list pystr :=
  match r with
  | Eps => [s]
  | Chr c =>
      match s with
      | c' :: t => if Ascii.eqb c c' then [t] else []
      | [] => []
      end
  | Seq r1 r2 => flat_map (run r2) (run r1 s)
  | Alt r1 r2 => run r1 s ++ run r2 s
  | Opt r1 => run r1 s ++ [s]
  | Plus1 cs => plus_class (in_set cs) s
  end.

(** [pattern.match] anchored at the head of [s]: the text of the first
    successful attempt. *)
Definition match_at (r : regex) (s : pystr) : option pystr :=
  match run r s with
  | t :: _ => Some (firstn (length s - length t) s)
  | [] => None
  end.

(** A match object: [m.start()] and [m.group(0)]. *)
Record match_obj : Type := Match { start : nat; group0 : pystr }.

(** [pattern.search]: the start positions are tried from left to right,
    the end of the string included. *)
Fixpoint search_from (r : regex) (pos : nat) (s : pystr) : option match_obj :=
  match match_at r s with
  | Some m => Some (Match pos m)
  | None =>
      match s with
      | [] => None
      | _ :: s' => search_from r (S pos) s'
      end
  end.

Definition search (r : regex) (s : pystr) : option match_obj := search_from r 0 s.

(** The language of a pattern. *)
Inductive matches : regex -> pystr -> Prop :=
| MEps : matches Eps []
| MChr c : matches (Chr c) [c]
| MSeq r1 r2 m1 m2 : matches r1 m1 -> matches r2 m2 -> matches (Seq r1 r2) (m1 ++ m2)
| MAltL r1 r2 m : matches r1 m -> matches (Alt r1 r2) m
| MAltR r1 r2 m : matches r2 m -> matches (Alt r1 r2) m
| MOptNone r : matches (Opt r) []
| MOptSome r m : matches r m -> matches (Opt r) m
| MPlus1 cs m : m <> [] -> forallb (in_set cs) m = true -> matches (Plus1 cs) m.

End Re.

(** ** The pattern of the source *)

Definition alnum : Re.charset :=
  [("a"%char, "z"%char); ("A"%char, "Z"%char); ("0"%char, "9"%char)].

(** [https?://open\.spotify\.com/(track|album|playlist)/[a-zA-Z0-9]+(\?si=[a-zA-Z0-9]+)?(&nd=1)?] *)
Definition SPOTIFY_URL_PATTERN : Re.regex :=
  Re.seq_of
    [ Re.str (L "http"); Re.Opt (Re.Chr "s");
      Re.str (L "://open.spotify.com/");
      Re.Alt (Re.str (L "track")) (Re.Alt (Re.str (L "album")) (Re.str (L "playlist")));
      Re.Chr "/";
      Re.Plus1 alnum;
      Re.Opt (Re.Seq (Re.str (L "?si=")) (Re.Plus1 alnum));
      Re.Opt (Re.str (L "&nd=1")) ].

(** The Link Validator: [SPOTIFY_URL_PATTERN.search(user_text)], then
    [match.group(0)]. *)
Definition link_validator (user_text : pystr) : option pystr :=
  option_map Re.group0 (Re.search SPOTIFY_URL_PATTERN user_text).

(** ** Python values *)

(** What [response.json()] yields.  A JSON object is the [dict] built from it,
    read by key; a number is held by its value. *)
Inductive json : Type :=
| JNull
| JBool (b : bool)
| JNum (q : Q)
| JStr (s : pystr)
| JArr (items : list json)
| JObj (fields : list (pystr * json)).

(** [bool(v)]: the truth value of a Python object. *)
Definition truthy (v : json) : bool :=
  match v with
  | JNull => false
  | JBool b => b
  | JNum q => negb (Qeq_bool q 0)
  | JStr s => match s with [] => false | _ => true end
  | JArr items => match items with [] => false | _ => true end
  | JObj fields => match fields with [] => false | _ => true end
  end.

(** [v is True]. *)
Definition is_True (v : json) : bool :=
  match v with
  | JBool true => true
  | _ => false
  end.

Fixpoint pystr_eqb (a b : pystr) : bool :=
  match a, b with
  | [], [] => true
  | x :: a', y :: b' => Ascii.eqb x y && pystr_eqb a' b'
  | _, _ => false
  end.

(** [d.get(key, default)] on a [dict]. *)
Fixpoint dict_get (d : list (pystr * json)) (key : pystr) (default : json) : json :=
  match d with
  | [] => default
  | (k, v) :: d' => if pystr_eqb k key then v else dict_get d' key default
  end.

(** The exceptions of the model, all of them instances of [Exception]:
    [Timeout] and [ConnectionError] are raised by the transport,
    [HTTPError] by [raise_for_status] (it carries the response),
    [JSONDecodeError] by [response.json()]; these are
    [requests.RequestException]s.  An [HTTPError] comes in two states of the
    response it carries: [HTTPError status body] when the body is at hand or
    downloads as [body], [HTTPErrorUnread status failure] when the body of a
    streamed response has not been downloaded and its download raises
    [failure].  Interrupts and task cancellation, which are no
    [Exception]s, are outside the model. *)
Inductive exn : Type :=
| Timeout
| ConnectionError
| HTTPError (status : Z) (body : list Byte.byte)
| HTTPErrorUnread (status : Z) (failure : exn)
| JSONDecodeError
| AttributeError
| IndexError
| ValueError
| TelegramError (message : pystr).

Definition is_Timeout (e : exn) : bool :=
  match e with
  | Timeout => true
  | _ => false
  end.

Definition is_RequestException (e : exn) : bool :=
  match e with
  | Timeout | ConnectionError | HTTPError _ _ | HTTPErrorUnread _ _ | JSONDecodeError => true
  | _ => false
  end.

Inductive outcome (A : Type) : Type :=
| Ok (a : A)
| Raise (e : exn).
Arguments Ok {A} & a.
Arguments Raise {A} e.

(** [e.response], when it is not [None]: its [status_code], and what reading
    its [text] gives. *)
Definition exn_response (e : exn) : option (Z * outcome (list Byte.byte)) :=
  match e with
  | HTTPError status body => Some (status, Ok body)
  | HTTPErrorUnread status failure => Some (status, Raise failure)
  | _ => None
  end.

(** Whether [e.response.text] can be read: there is no response, or its body
    is at hand or downloads. *)
Definition text_readable (e : exn) : bool :=
  match exn_response e with
  | Some (_, Raise _) => false
  | _ => true
  end.

(** ** Filename derivation *)

(** [s.split(sep)] for a one-character separator. *)
Fixpoint split (sep : ascii) (s : pystr) : list pystr :=
  match s with
  | [] => [[]]
  | c :: t =>
      if Ascii.eqb c sep then [] :: split sep t
      else match split sep t with
           | h :: r => (c :: h) :: r
           | [] => [[c]]
           end
  end.

(** [sep.join(l)]. *)
Fixpoint join (sep : ascii) (l : list pystr) : pystr :=
  match l with
  | [] => []
  | [x] => x
  | x :: l' => x ++ sep :: join sep l'
  end.

(** [l[-1]] and [l[0]]: [IndexError] on an empty list. *)
Definition item_last (l : list pystr) : outcome pystr :=
  match rev l with
  | x :: _ => Ok x
  | [] => Raise IndexError
  end.

Definition item_first (l : list pystr) : outcome pystr :=
  match l with
  | x :: _ => Ok x
  | [] => Raise IndexError
  end.

(** [spotify_url.split('/')[-1].split('?')[0]] *)
Definition track_id_of (spotify_url : pystr) : outcome pystr :=
  match item_last (split "/" spotify_url) with
  | Ok seg => item_first (split "?" seg)
  | Raise e => Raise e
  end.

(** Lines 72-76: [try: ... track_name = f"Track_{track_id}"
    except Exception: track_name = "Downloaded_Track"]. *)
Definition track_name_of (spotify_url : pystr) : pystr :=
  match track_id_of spotify_url with
  | Ok track_id => L "Track_" ++ track_id
  | Raise _ => L "Downloaded_Track"
  end.

(** ** The world: buffers, the trace, the collaborators *)

(** An [io.BytesIO] object. *)
Record BytesIO : Type := mkBytesIO {
  getvalue : list Byte.byte;
  name : option pystr;
  tell : nat;
  closed : bool
}.

(** A reference to a buffer of the heap. *)
Definition ref := nat.

Inductive level : Type := INFO | ERROR.

(** The lines the program logs, by the place that writes them. *)
Inductive log_msg : Type :=
| LogAttempt (spotify_url : pystr)
| LogStep1Failed (message : json)
| LogMissingField
| LogStep1Success
| LogFileSize (file_size_mb : Q)
| LogTooLarge (file_size_mb : Q)
| LogDownloaded (name : pystr)
| LogTimedOut
| LogCallError (e : exn)
| LogResponseCode (status : Z)
| LogResponseBody (body : list Byte.byte)
| LogUnexpected (e : exn)
| LogSendFailed (e : exn).

Inductive event : Type :=
| Log (lvl : level) (m : log_msg)
| HttpPost (endpoint : pystr) (api_key : option pystr) (host : pystr) (urls : pystr) (timeout : Z)
| HttpGet (url payload : json) (timeout : Z)
| ReplyText (text : pystr)
| ReplyAudio (audio : ref) (filename : pystr) (write_timeout : Z)
| EditMessageText (chat_id message_id : Z) (text : pystr).

Record world : Type := mkWorld {
  heap : list BytesIO;
  trace : list event
}.

(** An HTTP response that has been read in full: [status_code], [content],
    and the body parsed as JSON ([Raise] when it is no JSON). *)
Record response : Type := mkResponse {
  status_code : Z;
  content : list Byte.byte;
  json_body : outcome json
}.

(** [response.json()]: the parsed body; on a body that is no JSON the
    method raises its own decoding error, which carries no response. *)
Definition json_of (r : response) : outcome json :=
  match json_body r with
  | Ok j => Ok j
  | Raise _ => Raise JSONDecodeError
  end.

(** A response as [requests] hands it over.  With [stream=True] only the
    status line and the headers have arrived: the body is downloaded when
    [content] or [text] is first read, and that download can raise. *)
Record stream : Type := mkStream {
  stream_status : Z;
  stream_body : outcome (list Byte.byte)
}.

(** A response read in full, as a stream: its body is at hand.  Where a
    statement gives a response [r] as the answer of the GET, it stands for
    [whole r], a streamed answer whose body downloads as [content r]. *)
Definition whole (r : response) : stream :=
  mkStream (status_code r) (Ok (content r)).
Coercion whole : response >-> stream.

(** The remote conversion service, as seen through [requests]: the POST of
    Phase 1 reads the whole response, the GET of Phase 2 streams it. *)
Record network : Type := mkNetwork {
  net_post : pystr -> pystr -> outcome response;
  net_get : json -> json -> outcome stream
}.

(** The chat platform: [reply_text] gives the id of the message sent. *)
Record telegram : Type := mkTelegram {
  tg_reply_text : pystr -> outcome Z;
  tg_reply_audio : list Byte.byte -> pystr -> outcome unit;
  tg_edit_message_text : Z -> Z -> pystr -> outcome unit
}.

(** ** The monad of effects *)

Definition M (A : Type) : Type := world -> world * outcome A.

Definition ret {A} (a : A) : M A := fun w => (w, Ok a).

Definition raise {A} (e : exn) : M A := fun w => (w, Raise e).

Definition bind {A B} (m : M A) (k : A -> M B) : M B :=
  fun w =>
    match m w with
    | (w', Ok a) => k a w'
    | (w', Raise e) => (w', Raise e)
    end.

Declare Scope py_scope.
Delimit Scope py_scope with py.
Notation "x <- m ;; k" := (bind m (fun x => k))
  (at level 61, m at next level, right associativity) : py_scope.
Notation "m ;; k" := (bind m (fun _ => k))
  (at level 61, right associativity) : py_scope.
Open Scope py_scope.

Definition lift {A} (o : outcome A) : M A := fun w => (w, o).

Definition emit (ev : event) : M unit :=
  fun w => (mkWorld (heap w) (trace w ++ [ev]), Ok tt).

Definition log (lvl : level) (m : log_msg) : M unit := emit (Log lvl m).

(** [try: body except Exception as e: handler e]. *)
Definition try_except {A} (body : M A) (handler : exn -> M A) : M A :=
  fun w =>
    match body w with
    | (w', Ok a) => (w', Ok a)
    | (w', Raise e) => handler e w'
    end.

(** [try: body finally: cleanup]: the cleanup runs on both exits; the
    exception of the body goes on afterwards. *)
Definition try_finally {A} (body : M A) (cleanup : M unit) : M A :=
  fun w =>
    match body w with
    | (w', Ok a) => (cleanup ;; ret a) w'
    | (w', Raise e) => (cleanup ;; raise e) w'
    end.

(** *** Buffers *)

Fixpoint heap_set (h : list BytesIO) (r : ref) (b : BytesIO) : list BytesIO :=
  match h, r with
  | [], _ => []
  | _ :: h', O => b :: h'
  | x :: h', S r' => x :: heap_set h' r' b
  end.

(** [BytesIO(initial_bytes)]. *)
Definition BytesIO_new (initial_bytes : list Byte.byte) : M ref :=
  fun w =>
    (mkWorld (heap w ++ [mkBytesIO initial_bytes None 0 false]) (trace w),
     Ok (length (heap w))).

Definition deref (r : ref) : M BytesIO :=
  fun w =>
    match nth_error (heap w) r with
    | Some b => (w, Ok b)
    | None => (w, Raise AttributeError)
    end.

Definition store (r : ref) (b : BytesIO) : M unit :=
  fun w => (mkWorld (heap_set (heap w) r b) (trace w), Ok tt).

(** [f.name = value]. *)
Definition set_name (r : ref) (value : pystr) : M unit :=
  b <- deref r ;;
  store r (mkBytesIO (getvalue b) (Some value) (tell b) (closed b)).

(** [f.seek(pos)]: [ValueError] on a closed file. *)
Definition seek (r : ref) (pos : nat) : M unit :=
  b <- deref r ;;
  if closed b then raise ValueError
  else store r (mkBytesIO (getvalue b) (name b) pos false).

(** [f.close()]: never fails, also on a closed file. *)
Definition close (r : ref) : M unit :=
  b <- deref r ;;
  store r (mkBytesIO (getvalue b) (name b) (tell b) true).

(** ** The program *)

Definition DOWNLOAD_API_ENDPOINT : pystr := L "https://spotify-downloader12.p.rapidapi.com/convert".
Definition DOWNLOAD_API_HOST : pystr := L "spotify-downloader12.p.rapidapi.com".

Definition MSG_STATUS : pystr :=
  L "⏳ Connecting to download API and fetching track... This may take a moment.".
Definition MSG_SUCCESS : pystr :=
  L "✅ Download successful! Sending your audio file now.".
Definition MSG_UPLOAD_FAILED : pystr :=
  L "❌ Error: I successfully downloaded the file but failed to upload it to Telegram. Please check the logs.".
Definition MSG_DOWNLOAD_FAILED : pystr :=
  L "❌ Download Failed. The external API could not process the request or I failed to connect. This could be due to an invalid link, an API error, or the request timing out. Please try again later.".
Definition MSG_NOT_A_LINK : pystr :=
  L "That doesn't look like a valid Spotify track URL. Please send a link that starts with `https://open.spotify.com/track/...`".

(** [len(file_content) / (1024 * 1024)].  Python's true division rounds the
    exact quotient to the nearest float; a quotient of an integer by [2^20]
    that is above 50 is above it by [2^-20] at least, far more than the
    spacing of the floats around 50, so the test [file_size_mb > 50] on the
    float and on the exact quotient agree for every length. *)
Definition file_size_mb_of (file_content : list Byte.byte) : Q :=
  (inject_Z (Z.of_nat (length file_content)) / inject_Z (1024 * 1024))%Q.

(** [a > b] on numbers. *)
Definition Qgt_bool (a b : Q) : bool := negb (Qle_bool a b).

(** An incoming update: [update.message.text] and [update.message.chat_id]. *)
Record update : Type := mkUpdate {
  message_text : option pystr;
  message_chat_id : Z
}.

(** What the dispatcher hands to a handler: an update whose [message] is
    there, or one whose [message] is [None] (an edited message, a channel
    post).  Where a statement gives an [update] to a handler, it stands for
    [WithMessage] of it. *)
Inductive Update : Type :=
| WithMessage (u : update)
| WithoutMessage.
Coercion WithMessage : update >-> Update.

Section Bot.

(** Configuration and collaborators. *)
Variable DOWNLOAD_API_KEY : option pystr.
Variable net : network.
Variable tg : telegram.

(** [requests.post(endpoint, json={}, headers=..., params={"urls": urls}, timeout=...)] *)
Definition requests_post (endpoint urls : pystr) (timeout : Z) : M response :=
  emit (HttpPost endpoint DOWNLOAD_API_KEY DOWNLOAD_API_HOST urls timeout) ;;
  lift (net_post net endpoint urls).

(** [requests.get(url, params={'payload': payload}, stream=True, timeout=...)] *)
Definition requests_get (url payload : json) (timeout : Z) : M stream :=
  emit (HttpGet url payload timeout) ;;
  lift (net_get net url payload).

(** [response.raise_for_status()]: [HTTPError] on a 4xx or 5xx status.  The
    exception carries the response, whose body is not read here. *)
Definition raise_for_status (r : stream) : M unit :=
  if ((400 <=? stream_status r) && (stream_status r <? 600))%Z
  then raise match stream_body r with
             | Ok body => HTTPError (stream_status r) body
             | Raise failure => HTTPErrorUnread (stream_status r) failure
             end
  else ret tt.

(** [v.get(key, default)]: only a [dict] has the method. *)
Definition py_get (v : json) (key : pystr) (default : json) : M json :=
  match v with
  | JObj fields => ret (dict_get fields key default)
  | _ => raise AttributeError
  end.

(** The body of the [try] of [call_download_api] (lines 53-113). *)
Definition call_download_api_body (spotify_url : pystr) : M (option ref * option pystr) :=
  api_response <- requests_post DOWNLOAD_API_ENDPOINT spotify_url 30 ;;
  raise_for_status api_response ;;
  response_json <- lift (json_of api_response) ;;
  error <- py_get response_json (L "error") JNull ;;
  failed <- (if is_True error then ret true
             else (url <- py_get response_json (L "url") JNull ;; ret (negb (truthy url)))) ;;
  if failed : bool then
    message <- py_get response_json (L "message") (JStr (L "No error message")) ;;
    log ERROR (LogStep1Failed message) ;;
    ret (None, None)
  else
    intermediate_url <- py_get response_json (L "url") JNull ;;
    intermediate_payload <- py_get response_json (L "payload") JNull ;;
    let track_name := track_name_of spotify_url in
    if negb (truthy intermediate_url) || negb (truthy intermediate_payload) then
      log ERROR LogMissingField ;;
      ret (None, None)
    else
      log INFO LogStep1Success ;;
      file_response <- requests_get intermediate_url intermediate_payload 60 ;;
      raise_for_status file_response ;;
      file_content <- lift (stream_body file_response) ;;
      let file_size_mb := file_size_mb_of file_content in
      log INFO (LogFileSize file_size_mb) ;;
      if Qgt_bool file_size_mb 50 then
        log ERROR (LogTooLarge file_size_mb) ;;
        ret (None, None)
      else
        audio_file <- BytesIO_new file_content ;;
        set_name audio_file (track_name ++ L ".mp3") ;;
        seek audio_file 0 ;;
        log INFO (LogDownloaded (track_name ++ L ".mp3")) ;;
        ret (Some audio_file, Some track_name).

(** The three [except] clauses (lines 115-126), in the order they are
    tried.  Line 122 reads [e.response.text] inside the second clause: what
    that read raises is raised by the client, no clause catches it. *)
Definition call_download_api_handler (e : exn) : M (option ref * option pystr) :=
  if is_Timeout e then
    log ERROR LogTimedOut ;;
    ret (None, None)
  else if is_RequestException e then
    log ERROR (LogCallError e) ;;
    match exn_response e with
    | Some (status, text) =>
        log ERROR (LogResponseCode status) ;;
        body <- lift text ;;
        log ERROR (LogResponseBody body)
    | None => ret tt
    end ;;
    ret (None, None)
  else
    log ERROR (LogUnexpected e) ;;
    ret (None, None).

(** The Conversion Client. *)
Definition call_download_api (spotify_url : pystr) : M (option ref * option pystr) :=
  log INFO (LogAttempt spotify_url) ;;
  try_except (call_download_api_body spotify_url) call_download_api_handler.

Definition reply_text (text : pystr) : M Z :=
  emit (ReplyText text) ;;
  lift (tg_reply_text tg text).

Definition reply_audio (audio : ref) (filename : pystr) (write_timeout : Z) : M unit :=
  emit (ReplyAudio audio filename write_timeout) ;;
  b <- deref audio ;;
  lift (tg_reply_audio tg (getvalue b) filename).

Definition edit_message_text (chat_id message_id : Z) (text : pystr) : M unit :=
  emit (EditMessageText chat_id message_id text) ;;
  lift (tg_edit_message_text tg chat_id message_id text).

(** [f"{track_name}.mp3"]. *)
Definition mp3_name (track_name : option pystr) : pystr :=
  match track_name with
  | Some n => n ++ L ".mp3"
  | None => L "None.mp3"
  end.

(** The delivery step (lines 163-187): what runs when [audio_file] is
    there. *)
Definition deliver (u : update) (status_message : Z)
           (audio_file : ref) (track_name : option pystr) : M unit :=
  try_finally
    (try_except
       (reply_audio audio_file (mp3_name track_name) 120 ;;
        edit_message_text (message_chat_id u) status_message MSG_SUCCESS)
       (fun e =>
          log ERROR (LogSendFailed e) ;;
          reply_text MSG_UPLOAD_FAILED ;;
          ret tt))
    (close audio_file).

Definition process_spotify_link (u : update) (url : pystr) : M unit :=
  status_message <- reply_text MSG_STATUS ;;
  r <- call_download_api url ;;
  match fst r with
  | Some audio_file => deliver u status_message audio_file (snd r)
  | None => edit_message_text (message_chat_id u) status_message MSG_DOWNLOAD_FAILED
  end.

(** Line 140 reads [update.message.text]: [AttributeError] when
    [update.message] is [None]. *)
Definition handle_message (update : Update) : M unit :=
  match update with
  | WithoutMessage => raise AttributeError
  | WithMessage u =>
      match message_text u with
      | None => ret tt
      | Some [] => ret tt
      | Some user_text =>
          match Re.search SPOTIFY_URL_PATTERN user_text with
          | Some m => process_spotify_link u (Re.group0 m)
          | None => reply_text MSG_NOT_A_LINK ;; ret tt
          end
      end
  end.

End Bot.

(** ** The specification's vocabulary *)

(** An alphanumeric character: one of [A-Z], [a-z], [0-9]. *)
Definition between (lo hi c : ascii) : bool :=
  (N_of_ascii lo <=? N_of_ascii c)%N && (N_of_ascii c <=? N_of_ascii hi)%N.

Definition is_alnum (c : ascii) : bool :=
  between "A" "Z" c || between "a" "z" c || between "0" "9" c.

(** An identifier: alphanumeric, of at least one character. *)
Definition identifier (w : pystr) : Prop := w <> [] /\ forallb is_alnum w = true.

(** The URL grammar in the specification's words: scheme [http] or [https],
    the canonical host, a path prefix [track], [album] or [playlist], an
    identifier, then an optional share parameter and an optional [&nd=1]. *)
Definition url_grammar (m : pystr) : Prop :=
  exists scheme kind id si nd,
    m = scheme ++ L "://open.spotify.com/" ++ kind ++ L "/" ++ id ++ si ++ nd /\
    (scheme = L "http" \/ scheme = L "https") /\
    (kind = L "track" \/ kind = L "album" \/ kind = L "playlist") /\
    identifier id /\
    (si = [] \/ exists v, identifier v /\ si = L "?si=" ++ v) /\
    (nd = [] \/ nd = L "&nd=1").

(** The failure kinds of the specification's taxonomy. *)
Inductive failure_kind : Type :=
| NoUrlMatch
| TransportFailure
| RemoteRejection
| PayloadTooLarge
| DeliveryFailure.

(** The kind of failure each error line of the log stands for, by the
    taxonomy's triggers: a timeout or an error of the transport is a
    [TransportFailure]; a non-success status, a body that is no JSON object
    or one that signals an error or lacks a field is a [RemoteRejection]. *)
Definition failure_of_log (m : log_msg) : option failure_kind :=
  match m with
  | LogStep1Failed _ | LogMissingField => Some RemoteRejection
  | LogTooLarge _ => Some PayloadTooLarge
  | LogTimedOut => Some TransportFailure
  | LogCallError (HTTPError _ _) | LogCallError (HTTPErrorUnread _ _)
  | LogCallError JSONDecodeError => Some RemoteRejection
  | LogCallError _ => Some TransportFailure
  | LogUnexpected _ => Some RemoteRejection
  | LogSendFailed _ => Some DeliveryFailure
  | _ => None
  end.

(** The failures a trace records, in order. *)
Fixpoint failures (t : list event) : list failure_kind :=
  match t with
  | [] => []
  | Log ERROR m :: t' =>
      match failure_of_log m with
      | Some k => k :: failures t'
      | None => failures t'
      end
  | _ :: t' => failures t'
  end.

(** Whether an event is the Phase-2 fetch. *)
Definition is_fetch (ev : event) : bool :=
  match ev with
  | HttpGet _ _ _ => true
  | _ => false
  end.

(** Whether an event is the upload of the audio to the chat. *)
Definition is_upload (ev : event) : bool :=
  match ev with
  | ReplyAudio _ _ _ => true
  | _ => false
  end.

(** The 50 MiB ceiling, in bytes. *)
Definition CEILING : Z := 50 * 1024 * 1024.

(** [strip l s]: what is left of [s] after the literal [l], when [s]
    starts with it. *)
Fixpoint strip (l s : pystr) : option pystr :=
  match l, s with
  | [], _ => Some s
  | c :: l', c' :: s' => if Ascii.eqb c c' then strip l' s' else None
  | _ :: _, [] => None
  end.

(** The first attempt of a list of remainders leaves strictly less than
    every later one: the first match is the longest. *)
Definition head_min (l : list pystr) : Prop :=
  match l with
  | [] => True
  | h :: tl => Forall (fun y => length h < length y) tl
  end.

(** A list of remainders that is not empty, whose head is the strict
    minimum, all within [bound]. *)
Definition good (bound : nat) (X : list pystr) : Prop :=
  X <> [] /\ head_min X /\ Forall (fun y => length y <= bound) X.

(** The items of the pattern after the path prefix. *)
Definition SHARE : Re.regex := Re.Opt (Re.Seq (Re.str (L "?si=")) (Re.Plus1 alnum)).
Definition ND : Re.regex := Re.Opt (Re.str (L "&nd=1")).
Definition SUFFIX : Re.regex := Re.Seq SHARE ND.
Definition TAIL : Re.regex := Re.Seq (Re.Plus1 alnum) SUFFIX.

(** ** Sample collaborators *)

(** A conversion service that accepts every request: Phase 1 answers with
    an intermediate location and a token, Phase 2 with [body]. *)
Definition service_ok (body : list Byte.byte) : network :=
  mkNetwork
    (fun _ _ =>
       Ok (mkResponse 200 []
             (Ok (JObj [(L "error", JBool false);
                        (L "url", JStr (L "https://cdn.example/file"));
                        (L "payload", JStr (L "token"))]))))
    (fun _ _ => Ok (mkResponse 200 body (Raise JSONDecodeError))).

(** A service whose Phase 1 answers [{"error": true, "message": "bad link"}]. *)
Definition service_error : network :=
  mkNetwork
    (fun _ _ =>
       Ok (mkResponse 200 []
             (Ok (JObj [(L "error", JBool true); (L "message", JStr (L "bad link"))]))))
    (fun _ _ => Raise ConnectionError).

(** A service that never answers. *)
Definition service_timeout : network :=
  mkNetwork (fun _ _ => Raise Timeout) (fun _ _ => Raise Timeout).

(** A chat platform on which every call succeeds. *)
Definition chat_ok : telegram :=
  mkTelegram (fun _ => Ok 7%Z) (fun _ _ => Ok tt) (fun _ _ _ => Ok tt).

(** A chat platform that refuses the upload. *)
Definition chat_upload_fails : telegram :=
  mkTelegram (fun _ => Ok 7%Z)
             (fun _ _ => Raise (TelegramError (L "Request Entity Too Large")))
             (fun _ _ _ => Ok tt).

Definition empty_world : world := mkWorld [] [].

(** A body of [n] bytes. *)
Definition body_of_size (n : Z) : list Byte.byte := repeat Byte.x00 (Z.to_nat n).

(** ** The rest of the program *)

Definition MSG_WELCOME : pystr :=
  L "Hello! I am your Spotify Music Downloader Bot. 🎵" ++ ["010"%char; "010"%char] ++
  L "Send me a direct Spotify track URL, and I will try to download the MP3 file for you.".

(** [start_command]: the welcoming message, a reply to [update.message]. *)
Definition start_command (tg : telegram) (update : Update) : M unit :=
  match update with
  | WithoutMessage => raise AttributeError
  | WithMessage _ => reply_text tg MSG_WELCOME ;; ret tt
  end.

(** What [main] does, in order. *)
Inductive startup_event : Type :=
| LogFatal (variable : pystr)
| BuildApplication (token : pystr)
| AddCommandHandler (command : pystr)
| AddTextHandler
| LogStarted
| RunPolling (poll_interval : Q).

(** [main] (lines 202-222), on the two credentials read from the
    environment: [not v] holds of a variable that is unset or empty. *)
Definition main (TELEGRAM_TOKEN DOWNLOAD_API_KEY : option pystr) : list startup_event :=
  match TELEGRAM_TOKEN with
  | None | Some [] => [LogFatal (L "TELEGRAM_TOKEN")]
  | Some token =>
      match DOWNLOAD_API_KEY with
      | None | Some [] => [LogFatal (L "DOWNLOAD_API_KEY")]
      | Some _ =>
          [BuildApplication token; AddCommandHandler (L "start"); AddTextHandler;
           LogStarted; RunPolling 1]
      end
  end.

(** Whether the start-up reaches [run_polling]. *)
Definition starts_polling (l : list startup_event) : bool :=
  existsb (fun ev => match ev with RunPolling _ => true | _ => false end) l.

(** Whether a variable of the environment is set and not empty. *)
Definition is_set (v : option pystr) : bool :=
  match v with
  | Some (_ :: _) => true
  | _ => false
  end.

(** Whether an event is a request to the conversion service. *)
Definition is_request (ev : event) : bool :=
  match ev with
  | HttpPost _ _ _ _ _ | HttpGet _ _ _ => true
  | _ => false
  end.

(** Whether an event is a call to the chat platform. *)
Definition is_chat (ev : event) : bool :=
  match ev with
  | ReplyText _ | ReplyAudio _ _ _ | EditMessageText _ _ _ => true
  | _ => false
  end.

(** The requests of a trace, in order. *)
Definition requests_of (t : list event) : list event := filter is_request t.

(** The world the client starts in during [process_spotify_link]: the
    status message has been sent. *)
Definition after_status (w : world) : world :=
  mkWorld (heap w) (trace w ++ [ReplyText MSG_STATUS]).

(** The buffer the client allocates for the answer [r2] of Phase 2. *)
Definition fresh_buffer (url : pystr) (r2 : response) : BytesIO :=
  mkBytesIO (content r2) (Some (track_name_of url ++ L ".mp3")) 0 false.

(** One text event of a session: the update, and what the conversion
    service and the chat platform answer while it is handled.  The answers
    are those of that moment: the next event has its own. *)
Record step : Type := mkStep {
  step_net : network;
  step_tg : telegram;
  step_update : Update
}.

(** The handler run on a sequence of text events, one after the other; an
    exception that escapes one run does not stop the next. *)
Fixpoint handle_all (key : option pystr) (steps : list step) (w : world) : world :=
  match steps with
  | [] => w
  | s :: steps' =>
      handle_all key steps'
        (fst (handle_message key (step_net s) (step_tg s) (step_update s) w))
  end.

(** The bot, from its start on a sequence of text events: the handler runs
    on them, with the API key of the environment, once [main] polls. *)
Definition bot (TELEGRAM_TOKEN DOWNLOAD_API_KEY : option pystr)
           (steps : list step) (w : world) : world :=
  if starts_polling (main TELEGRAM_TOKEN DOWNLOAD_API_KEY)
  then handle_all DOWNLOAD_API_KEY steps w
  else w.

(** A service whose Phase 2 answers with status 502 and a body that breaks
    off while it is downloaded. *)
Definition service_broken : network :=
  mkNetwork
    (fun _ _ =>
       Ok (mkResponse 200 []
             (Ok (JObj [(L "error", JBool false);
                        (L "url", JStr (L "https://cdn.example/file"));
                        (L "payload", JStr (L "token"))]))))
    (fun _ _ => Ok (mkStream 502 (Raise ConnectionError))).

(** A chat platform on which every call fails. *)
Definition chat_down : telegram :=
  mkTelegram (fun _ => Raise (TelegramError (L "Timed out")))
             (fun _ _ => Raise (TelegramError (L "Timed out")))
             (fun _ _ _ => Raise (TelegramError (L "Timed out"))).

(** * Facts about the matcher *)

Section MatcherFacts.

Import Re.

Lemma plus_class_sound p s t :
  In t (plus_class p s) -> exists m, s = m ++ t /\ m <> [] /\ forallb p m = true.
Proof.
  revert t. induction s as [|c s IH]; simpl; intros t H; [contradiction|].
  destruct (p c) eqn:Hc; [|contradiction].
  apply in_app_or in H. destruct H as [H|[H|[]]].
  - destruct (IH _ H) as (m & -> & _ & Hm).
    exists (c :: m). simpl. rewrite Hc, Hm. repeat split; discriminate.
  - subst t. exists [c]. simpl. rewrite Hc. repeat split; discriminate.
Qed.

Lemma plus_class_complete p m t :
  m <> [] -> forallb p m = true -> In t (plus_class p (m ++ t)).
Proof.
  induction m as [|c m IH]; [congruence|].
  simpl. intros _ H. apply andb_true_iff in H. destruct H as [Hc Hm].
  rewrite Hc. apply in_or_app. destruct m as [|c' m'].
  - right. left. reflexivity.
  - left. apply IH; [discriminate|assumption].
Qed.

Lemma run_sound r : forall s t, In t (run r s) -> exists m, s = m ++ t /\ matches r m.
Proof.
  induction r; simpl; intros s t H.
  - destruct H as [<-|[]]. exists []. split; [reflexivity|constructor].
  - destruct s as [|c' s']; [contradiction|].
    destruct (Ascii.eqb_spec c c') as [<-|]; [|contradiction].
    destruct H as [<-|[]]. exists [c]. split; [reflexivity|constructor].
  - apply in_flat_map in H. destruct H as (u & Hu & Ht).
    destruct (IHr1 _ _ Hu) as (m1 & -> & M1).
    destruct (IHr2 _ _ Ht) as (m2 & -> & M2).
    exists (m1 ++ m2). rewrite app_assoc. split; [reflexivity|constructor; assumption].
  - apply in_app_or in H. destruct H as [H|H].
    + destruct (IHr1 _ _ H) as (m & -> & Mm). exists m. split; [reflexivity|apply MAltL; assumption].
    + destruct (IHr2 _ _ H) as (m & -> & Mm). exists m. split; [reflexivity|apply MAltR; assumption].
  - apply in_app_or in H. destruct H as [H|[<-|[]]].
    + destruct (IHr _ _ H) as (m & -> & Mm). exists m. split; [reflexivity|apply MOptSome; assumption].
    + exists []. split; [reflexivity|apply MOptNone].
  - destruct (plus_class_sound _ _ _ H) as (m & -> & Hne & Hall).
    exists m. split; [reflexivity|constructor; assumption].
Qed.

Lemma run_complete r m : matches r m -> forall t, In t (run r (m ++ t)).
Proof.
  induction 1; intros t; simpl.
  - left. reflexivity.
  - rewrite Ascii.eqb_refl. left. reflexivity.
  - apply in_flat_map. exists (m2 ++ t). rewrite <- app_assoc. split; auto.
  - apply in_or_app. left. auto.
  - apply in_or_app. right. auto.
  - apply in_or_app. right. left. reflexivity.
  - apply in_or_app. left. auto.
  - apply plus_class_complete; assumption.
Qed.

End MatcherFacts.

Section PatternFacts.

Import Re.

Lemma strip_Some l : forall s u, strip l s = Some u <-> s = l ++ u.
Proof.
  induction l as [|c l IH]; simpl; intros s u.
  - split; congruence.
  - destruct s as [|c' s']; [split; discriminate|].
    destruct (Ascii.eqb_spec c c') as [<-|Hn].
    + rewrite IH. split; congruence.
    + split; congruence.
Qed.

Lemma run_str l : forall s,
  run (str l) s = match strip l s with Some u => [u] | None => [] end.
Proof.
  induction l as [|c l IH]; intros s; simpl; [reflexivity|].
  destruct s as [|c' s']; [reflexivity|].
  destruct (Ascii.eqb c c'); simpl; [|reflexivity].
  rewrite app_nil_r. apply IH.
Qed.

Lemma run_seq_str l r s :
  run (Seq (str l) r) s = match strip l s with Some u => run r u | None => [] end.
Proof.
  change (run (Seq (str l) r) s) with (flat_map (run r) (run (str l) s)).
  rewrite run_str. destruct (strip l s); simpl; [apply app_nil_r|reflexivity].
Qed.

Lemma matches_str l m : matches (str l) m <-> m = l.
Proof.
  split.
  - revert m. induction l as [|c l IH]; simpl; intros m H.
    + inversion H. reflexivity.
    + inversion H as [| |r1 r2 m1 m2 H1 H2| | | | |]. subst.
      inversion H1. subst. simpl. f_equal. apply IH. assumption.
  - intros ->. induction l as [|c l IH]; simpl.
    + constructor.
    + change (c :: l) with ([c] ++ l). constructor; [constructor|assumption].
Qed.

Lemma matches_seq r1 r2 m :
  matches (Seq r1 r2) m <-> exists m1 m2, m = m1 ++ m2 /\ matches r1 m1 /\ matches r2 m2.
Proof.
  split.
  - intros H. inversion H. subst. eauto.
  - intros (m1 & m2 & -> & H1 & H2). constructor; assumption.
Qed.

Lemma matches_opt r m : matches (Opt r) m <-> m = [] \/ matches r m.
Proof.
  split.
  - intros H. inversion H; subst; auto.
  - intros [->|H]; [apply MOptNone|apply MOptSome; assumption].
Qed.

Lemma matches_alt r1 r2 m : matches (Alt r1 r2) m <-> matches r1 m \/ matches r2 m.
Proof.
  split.
  - intros H. inversion H; subst; auto.
  - intros [H|H]; [apply MAltL|apply MAltR]; assumption.
Qed.

Lemma in_set_alnum c : in_set alnum c = is_alnum c.
Proof.
  unfold in_set, is_alnum, alnum, in_range, between. simpl.
  rewrite orb_false_r.
  destruct ((_ <=? _)%N && (_ <=? _)%N), ((_ <=? _)%N && (_ <=? _)%N),
           ((_ <=? _)%N && (_ <=? _)%N); reflexivity.
Qed.

Lemma forallb_alnum w : forallb (in_set alnum) w = forallb is_alnum w.
Proof. induction w as [|c w IH]; cbn [forallb]; [reflexivity|]. rewrite in_set_alnum, IH. reflexivity. Qed.

Lemma matches_plus_alnum m : matches (Plus1 alnum) m <-> identifier m.
Proof.
  unfold identifier. rewrite <- forallb_alnum. split.
  - intros H. inversion H. subst. auto.
  - intros [H1 H2]. constructor; assumption.
Qed.

(** The language of the pattern is the grammar of the specification. *)
Lemma pattern_grammar m : matches SPOTIFY_URL_PATTERN m <-> url_grammar m.
Proof.
  unfold SPOTIFY_URL_PATTERN, url_grammar. cbn [seq_of].
  split.
  - intros H.
    apply matches_seq in H. destruct H as (a1 & b1 & -> & Hh & H).
    apply matches_str in Hh. subst a1.
    apply matches_seq in H. destruct H as (a2 & b2 & -> & Hs & H).
    apply matches_opt in Hs.
    apply matches_seq in H. destruct H as (a3 & b3 & -> & Hhost & H).
    apply matches_str in Hhost. subst a3.
    apply matches_seq in H. destruct H as (kind & b4 & -> & Hk & H).
    apply matches_seq in H. destruct H as (a5 & b5 & -> & Hsl & H).
    inversion Hsl. subst.
    apply matches_seq in H. destruct H as (id & b6 & -> & Hid & H).
    apply matches_plus_alnum in Hid.
    apply matches_seq in H. destruct H as (si & nd & -> & Hsi & Hnd).
    apply matches_opt in Hsi. apply matches_opt in Hnd.
    exists (L "http" ++ a2), kind, id, si, nd.
    split; [|split; [|split; [|split; [|split]]]].
    + rewrite <- app_assoc. reflexivity.
    + destruct Hs as [->|Hs]; [left; reflexivity|right]. inversion Hs. reflexivity.
    + apply matches_alt in Hk. destruct Hk as [Hk|Hk]; [left; apply matches_str; assumption|].
      apply matches_alt in Hk. right.
      destruct Hk as [Hk|Hk]; [left|right]; apply matches_str; assumption.
    + apply Hid.
    + destruct Hsi as [->|Hsi]; [left; reflexivity|right].
      apply matches_seq in Hsi. destruct Hsi as (q & v & -> & Hq & Hv).
      apply matches_str in Hq. subst q. apply matches_plus_alnum in Hv.
      exists v. split; [assumption|reflexivity].
    + destruct Hnd as [->|Hnd]; [left; reflexivity|right]. apply matches_str; assumption.
  - intros (scheme & kind & id & si & nd & -> & Hs & Hk & Hid & Hsi & Hnd).
    assert (Hsch : exists o, scheme = L "http" ++ o /\ matches (Opt (Chr "s")) o).
    { destruct Hs as [->| ->]; [exists []|exists ["s"%char]]; split; try reflexivity.
      - apply MOptNone.
      - apply MOptSome. constructor. }
    destruct Hsch as (o & -> & Ho). rewrite <- app_assoc.
    constructor; [apply matches_str; reflexivity|].
    constructor; [assumption|].
    constructor; [apply matches_str; reflexivity|].
    constructor.
    { apply matches_alt. destruct Hk as [->|[->| ->]].
      - left. apply matches_str. reflexivity.
      - right. apply matches_alt. left. apply matches_str. reflexivity.
      - right. apply matches_alt. right. apply matches_str. reflexivity. }
    change (L "/" ++ id ++ si ++ nd) with (["/"%char] ++ id ++ si ++ nd).
    constructor; [constructor|].
    constructor; [apply matches_plus_alnum; assumption|].
    constructor.
    + apply matches_opt. destruct Hsi as [->|(v & Hv & ->)]; [left; reflexivity|right].
      constructor; [apply matches_str; reflexivity|apply matches_plus_alnum; assumption].
    + apply matches_opt. destruct Hnd as [->| ->]; [left; reflexivity|right].
      apply matches_str. reflexivity.
Qed.

End PatternFacts.

Section LongestFacts.

Import Re.

Lemma plus_class_shape p : forall w h tl,
  plus_class p w = h :: tl ->
  Forall (fun y => length h < length y /\ exists c t, y = c :: t /\ p c = true) tl /\
  Forall (fun y => length y < length w) (h :: tl).
Proof.
  induction w as [|c w IH]; simpl; intros h tl H; [discriminate|].
  destruct (p c) eqn:Hc; [|discriminate].
  destruct (plus_class p w) as [|h0 tl0] eqn:E.
  - simpl in H. injection H as <- <-. split; constructor; [simpl; lia|constructor].
  - simpl in H. injection H as <- <-.
    destruct (IH _ _ eq_refl) as [A B].
    assert (Hw : exists c' t', w = c' :: t' /\ p c' = true).
    { destruct w as [|c' t']; simpl in E; [discriminate|].
      destruct (p c') eqn:Hc'; [eauto|discriminate]. }
    inversion B as [|? ? B1 B2]. subst. split.
    + apply Forall_app. split; [assumption|].
      constructor; [split; assumption|constructor].
    + constructor; [simpl; lia|].
      apply Forall_app. split.
      * eapply Forall_impl; [|exact B2]. simpl. intros; lia.
      * constructor; [simpl; lia|constructor].
Qed.

Lemma flat_map_fixed (f : pystr -> list pystr) tl :
  Forall (fun y => f y = [y]) tl -> flat_map f tl = tl.
Proof.
  induction 1 as [|y tl Hy _ IH]; simpl; [reflexivity|]. rewrite Hy, IH. reflexivity.
Qed.

Lemma good_app (X tl : list pystr) (h : pystr) bound :
  good (length h) X ->
  Forall (fun y => length h < length y) tl ->
  Forall (fun y => length y <= bound) tl ->
  length h <= bound ->
  good bound (X ++ tl).
Proof.
  intros (Hne & Hmin & Hb) Hlt Hbd Hh.
  destruct X as [|x X']; [congruence|].
  inversion Hb as [|? ? Hx HX']. subst.
  split; [discriminate|]. split.
  - simpl. simpl in Hmin. apply Forall_app. split; [assumption|].
    eapply Forall_impl; [|exact Hlt]. simpl. intros; lia.
  - apply Forall_app. split; [|assumption].
    eapply Forall_impl; [|exact Hb]. simpl. intros; lia.
Qed.

Lemma alnum_not c (x : ascii) : in_set alnum x = false -> in_set alnum c = true -> Ascii.eqb x c = false.
Proof.
  intros Hx Hc. destruct (Ascii.eqb_spec x c) as [->|]; [congruence|reflexivity].
Qed.

Lemma nd_alnum_head c t : in_set alnum c = true -> run ND (c :: t) = [c :: t].
Proof.
  intros Hc. unfold ND. cbn [run]. rewrite run_str. cbn [L list_ascii_of_string strip].
  rewrite (alnum_not c "&" eq_refl Hc). reflexivity.
Qed.

Lemma good_nd v : good (length v) (run ND v).
Proof.
  unfold ND. cbn [run]. rewrite run_str.
  destruct (strip (L "&nd=1") v) as [w|] eqn:E.
  - apply strip_Some in E. subst v. simpl. split; [discriminate|]. split.
    + constructor; [simpl; lia|constructor].
    + constructor; [simpl; lia|constructor; [simpl; lia|constructor]].
  - simpl. split; [discriminate|]. split; constructor; [lia|constructor].
Qed.

Lemma suffix_alnum_head c t : in_set alnum c = true -> run SUFFIX (c :: t) = [c :: t].
Proof.
  intros Hc. unfold SUFFIX, SHARE. cbn [run]. rewrite run_str.
  cbn [L list_ascii_of_string strip].
  rewrite (alnum_not c "?" eq_refl Hc). cbn [flat_map app].
  rewrite nd_alnum_head by assumption. reflexivity.
Qed.

Lemma good_suffix v : good (length v) (run SUFFIX v).
Proof.
  unfold SUFFIX, SHARE. cbn [run]. rewrite run_str.
  destruct (strip (L "?si=") v) as [w|] eqn:E.
  - apply strip_Some in E. subst v. cbn [flat_map]. rewrite app_nil_r.
    rewrite flat_map_app. cbn [flat_map]. rewrite app_nil_r.
    assert (Hv : run ND (L "?si=" ++ w) = [L "?si=" ++ w]) by reflexivity.
    rewrite Hv. clear Hv.
    destruct (plus_class (in_set alnum) w) as [|h tl] eqn:P.
    + cbn [flat_map app]. split; [discriminate|]. split; [constructor|].
      constructor; [lia|constructor].
    + destruct (plus_class_shape _ _ _ _ P) as [A B].
      inversion B as [|? ? Bh Btl]. subst.
      cbn [flat_map]. rewrite (flat_map_fixed (run ND)).
      2:{ eapply Forall_impl; [|exact A]. simpl.
          intros y (_ & c & t & -> & Hc). apply nd_alnum_head. assumption. }
      rewrite <- app_assoc. apply good_app with (h := h).
      * apply good_nd.
      * apply Forall_app. split.
        -- eapply Forall_impl; [|exact A]. simpl. intros y [Hy _]. exact Hy.
        -- constructor; [rewrite ?length_app; simpl; lia|constructor].
      * apply Forall_app. split.
        -- eapply Forall_impl; [|exact Btl]. simpl. intros y Hy. rewrite ?length_app; simpl; lia.
        -- constructor; [simpl; lia|constructor].
      * rewrite ?length_app; simpl; lia.
  - cbn [app flat_map]. rewrite app_nil_r. apply good_nd.
Qed.

Lemma tail_head_min u : head_min (run TAIL u).
Proof.
  unfold TAIL. cbn [run]. fold SUFFIX.
  destruct (plus_class (in_set alnum) u) as [|h tl] eqn:P; [exact I|].
  destruct (plus_class_shape _ _ _ _ P) as [A B].
  cbn [flat_map]. rewrite (flat_map_fixed (run SUFFIX)).
  2:{ eapply Forall_impl; [|exact A]. simpl.
      intros y (_ & c & t & -> & Hc). apply suffix_alnum_head. assumption. }
  assert (G : good (length u) (run SUFFIX h ++ tl)).
  { inversion B as [|? ? Bh Btl]. subst. apply good_app with (h := h).
    - apply good_suffix.
    - eapply Forall_impl; [|exact A]. simpl. intros y [Hy _]. exact Hy.
    - eapply Forall_impl; [|exact Btl]. simpl. intros; lia.
    - lia. }
  apply G.
Qed.

Lemma run_opt_chr_seq c r u :
  run (Seq (Opt (Chr c)) r) u =
  match u with
  | c' :: t => if Ascii.eqb c c' then run r t ++ run r u else run r u
  | [] => run r []
  end.
Proof.
  cbn [run]. destruct u as [|c' t]; cbn [app flat_map]; [apply app_nil_r|].
  destruct (Ascii.eqb c c'); cbn [app flat_map]; rewrite app_nil_r; reflexivity.
Qed.

Lemma run_chr_seq c r u :
  run (Seq (Chr c) r) u =
  match u with
  | c' :: t => if Ascii.eqb c c' then run r t else []
  | [] => []
  end.
Proof.
  cbn [run]. destruct u as [|c' t]; [reflexivity|].
  destruct (Ascii.eqb c c'); cbn [flat_map]; [apply app_nil_r|reflexivity].
Qed.

Lemma run_alt3_seq a b c r v :
  run (Seq (Alt (str a) (Alt (str b) (str c))) r) v =
  match strip a v with Some w => run r w | None => [] end ++
  match strip b v with Some w => run r w | None => [] end ++
  match strip c v with Some w => run r w | None => [] end.
Proof.
  cbn [run]. rewrite !run_str, !flat_map_app.
  destruct (strip a v), (strip b v), (strip c v); cbn [flat_map]; rewrite ?app_nil_r; reflexivity.
Qed.

(** The path prefix is matched in at most one way: what the pattern leaves
    is what its tail leaves of some rest of the text. *)
Lemma prefix_run r s :
  let p := Seq (str (L "http")) (Seq (Opt (Chr "s")) (Seq (str (L "://open.spotify.com/"))
             (Seq (Alt (str (L "track")) (Alt (str (L "album")) (str (L "playlist"))))
                (Seq (Chr "/") r)))) in
  run p s = [] \/ exists u, run p s = run r u.
Proof.
  intros p. subst p. rewrite run_seq_str.
  destruct (strip (L "http") s) as [u|]; [|left; reflexivity].
  rewrite run_opt_chr_seq.
  match goal with |- context [run ?R []] => set (R3 := R) end.
  assert (H3 : forall v, run R3 v = [] \/ exists w, run R3 v = run r w).
  { intros v. subst R3. rewrite run_seq_str.
    destruct (strip (L "://open.spotify.com/") v) as [v1|]; [|left; reflexivity].
    rewrite run_alt3_seq.
    assert (Hsl : forall w, run (Seq (Chr "/") r) w = [] \/
                            exists w', run (Seq (Chr "/") r) w = run r w').
    { intros w. rewrite run_chr_seq. destruct w as [|c' t]; [left; reflexivity|].
      destruct (Ascii.eqb "/" c'); [right; eauto|left; reflexivity]. }
    destruct (strip (L "track") v1) as [w1|] eqn:E1;
      destruct (strip (L "album") v1) as [w2|] eqn:E2;
      destruct (strip (L "playlist") v1) as [w3|] eqn:E3;
      try apply strip_Some in E1; try apply strip_Some in E2; try apply strip_Some in E3;
      subst; try discriminate; cbn [app]; rewrite ?app_nil_r; auto. }
  assert (Hs : forall t, run R3 ("s"%char :: t) = []).
  { intros t. subst R3. rewrite run_seq_str. reflexivity. }
  destruct u as [|c t]; [apply H3|].
  destruct (Ascii.eqb_spec "s" c) as [<-|]; [|apply H3].
  rewrite Hs, app_nil_r. apply H3.
Qed.

Lemma pattern_run s :
  run SPOTIFY_URL_PATTERN s = [] \/ exists u, run SPOTIFY_URL_PATTERN s = run TAIL u.
Proof. exact (prefix_run TAIL s). Qed.

(** The first attempt that succeeds is the longest match at its start. *)
Lemma pattern_head_min s : head_min (run SPOTIFY_URL_PATTERN s).
Proof.
  destruct (pattern_run s) as [->|(u & ->)]; [exact I|apply tail_head_min].
Qed.

End LongestFacts.

Section SearchFacts.

Import Re.

Lemma match_at_Some r s m :
  match_at r s = Some m ->
  exists t rest, run r s = t :: rest /\ s = m ++ t /\ matches r m.
Proof.
  unfold match_at. destruct (run r s) as [|t rest] eqn:E; [discriminate|].
  intros H. injection H as <-.
  assert (Hin : In t (run r s)) by (rewrite E; left; reflexivity).
  destruct (run_sound _ _ _ Hin) as (m & -> & Hm).
  exists t, rest. rewrite length_app.
  replace (length m + length t - length t) with (length m + 0) by lia.
  rewrite firstn_app_2. cbn [firstn]. rewrite app_nil_r. auto.
Qed.

Lemma match_at_None r s :
  match_at r s = None -> forall m t, s = m ++ t -> ~ matches r m.
Proof.
  unfold match_at. destruct (run r s) as [|t0 rest] eqn:E; [|discriminate].
  intros _ m t -> Hm. apply run_complete with (t := t) in Hm.
  rewrite E in Hm. exact Hm.
Qed.

(** [search] finds a match at the leftmost start that has one, by the
    first attempt that succeeds there; it finds none only when the text
    has none. *)
Lemma search_from_spec r : forall s pos,
  match search_from r pos s with
  | Some mo =>
      exists pre t rest,
        s = pre ++ group0 mo ++ t /\ start mo = pos + length pre /\
        run r (group0 mo ++ t) = t :: rest /\ matches r (group0 mo) /\
        forall pre' m' t', s = pre' ++ m' ++ t' -> matches r m' -> length pre <= length pre'
  | None => forall pre m t, s = pre ++ m ++ t -> ~ matches r m
  end.
Proof.
  induction s as [|c s IH]; intros pos; cbn [search_from].
  - destruct (match_at r []) as [m|] eqn:E.
    + destruct (match_at_Some r _ _ E) as (t & rest & Hr & Hs & Hm).
      exists [], t, rest. cbn [group0 start app length]. rewrite <- Hs.
      repeat split; auto; intros; lia.
    + intros pre m t Hs. destruct pre; [|discriminate].
      exact (match_at_None r _ E m t Hs).
  - destruct (match_at r (c :: s)) as [m|] eqn:E.
    + destruct (match_at_Some r _ _ E) as (t & rest & Hr & Hs & Hm).
      exists [], t, rest. cbn [group0 start app length]. rewrite <- Hs.
      repeat split; auto; intros; lia.
    + specialize (IH (S pos)). destruct (search_from r (S pos) s) as [mo|].
      * destruct IH as (pre & t & rest & Hs & Hp & Hr & Hm & Hleft).
        exists (c :: pre), t, rest. cbn [app length]. rewrite <- Hs.
        repeat split; auto; [lia|].
        intros pre' m' t' Hs' Hm'. destruct pre' as [|c' pre'].
        -- exfalso. exact (match_at_None r _ E m' t' Hs' Hm').
        -- injection Hs' as _ Hs'. apply le_n_S. eapply Hleft; eauto.
      * intros pre m t Hs Hm. destruct pre as [|c' pre].
        -- exact (match_at_None r _ E m t Hs Hm).
        -- injection Hs as _ Hs. eapply IH; eauto.
Qed.

End SearchFacts.

Section ValidatorFacts.

Lemma app_same_length (A : Type) (p p' a a' : list A) :
  length p' = length p -> p ++ a = p' ++ a' -> p' = p /\ a' = a.
Proof.
  revert p'. induction p as [|x p IH]; intros [|x' p'] Hl H; simpl in *; try discriminate.
  - auto.
  - injection H as -> H. injection Hl as Hl. destruct (IH _ Hl H) as [-> ->]. auto.
Qed.

End ValidatorFacts.

(** * The Link Validator *)

(** C1. For every text the Link Validator returns the first substring that
    matches the URL grammar, exactly that substring: the result matches the
    grammar, it occurs in the text, no match of the grammar starts earlier
    in the text, and no match that starts at the same place is longer.  On
    a text with no substring in the grammar the result is no-match. *)
Theorem link_validator_first_match (text : pystr) :
  match link_validator text with
  | Some m =>
      url_grammar m /\
      exists pre, infix_at pre m text /\
        forall pre' m', infix_at pre' m' text -> url_grammar m' ->
          length pre <= length pre' /\
          (length pre' = length pre -> length m' <= length m)
  | None => forall pre m, infix_at pre m text -> ~ url_grammar m
  end.
Proof.
  unfold link_validator, Re.search.
  pose proof (search_from_spec SPOTIFY_URL_PATTERN text 0) as H.
  destruct (Re.search_from SPOTIFY_URL_PATTERN 0 text) as [[st m]|];
    cbn [option_map Re.group0 Re.start] in *.
  - destruct H as (pre & t & rest & Hs & _ & Hr & Hm & Hleft).
    split; [apply pattern_grammar; assumption|].
    exists pre. split; [exists t; assumption|].
    intros pre' m' (t' & Hs') Hg. apply pattern_grammar in Hg.
    split; [exact (Hleft pre' m' t' Hs' Hg)|].
    intros Hlen. rewrite Hs in Hs'.
    destruct (app_same_length _ _ _ _ _ Hlen Hs') as [_ Heq].
    pose proof (run_complete _ _ Hg t') as Hin. rewrite Heq, Hr in Hin.
    pose proof (pattern_head_min (m ++ t)) as Hmin. rewrite Hr in Hmin. cbn [head_min] in Hmin.
    apply (f_equal (@length ascii)) in Heq. rewrite !length_app in Heq.
    destruct Hin as [<-|Hin]; [lia|].
    rewrite Forall_forall in Hmin. specialize (Hmin _ Hin). lia.
  - intros pre m (t & Hs) Hg. apply pattern_grammar in Hg. exact (H pre m t Hs Hg).
Qed.

(** * Facts about the client *)

(** Symbolic execution of a monadic program: the oracles' answers and the
    tests are split one at a time, innermost first. *)
Ltac unfold_m :=
  unfold call_download_api, call_download_api_body, call_download_api_handler,
    requests_post, requests_get, raise_for_status, json_of, py_get, set_name, seek, close,
    reply_text, reply_audio, edit_message_text, log;
  unfold BytesIO_new, store, deref, emit, lift, try_except, try_finally, bind, ret, raise.

Ltac simpl_m :=
  cbn -[track_name_of file_size_mb_of Qgt_bool L Z.leb Z.ltb Re.search mp3_name
       call_download_api deliver process_spotify_link] in *.

Ltac split_m :=
  match goal with
  | |- context [match ?x with _ => _ end] =>
      lazymatch x with
      | context [match _ with _ => _ end] => fail
      | _ => destruct x eqn:?
      end
  end.

Lemma nth_error_alloc (h : list BytesIO) b : nth_error (h ++ [b]) (length h) = Some b.
Proof. rewrite nth_error_app2 by lia. rewrite Nat.sub_diag. reflexivity. Qed.

Lemma heap_set_alloc (h : list BytesIO) b b' : heap_set (h ++ [b]) (length h) b' = h ++ [b'].
Proof. induction h as [|x h IH]; simpl; [reflexivity|]. rewrite IH. reflexivity. Qed.

Ltac exec_m :=
  unfold_m; simpl_m;
  repeat (first [ progress rewrite ?nth_error_alloc, ?heap_set_alloc | split_m ]; simpl_m).

Lemma size_test c : Qgt_bool (file_size_mb_of c) 50 = (CEILING <? Z.of_nat (length c))%Z.
Proof.
  unfold Qgt_bool, file_size_mb_of, CEILING.
  generalize (Z.of_nat (length c)). intros n.
  unfold Qle_bool, Qdiv, Qmult, Qinv, inject_Z. cbn.
  destruct (Z.leb_spec (n * 1 * 1) 52428800), (Z.ltb_spec 52428800 n); try reflexivity; lia.
Qed.

Lemma length_body_of_size n : (0 <= n)%Z -> Z.of_nat (length (body_of_size n)) = n.
Proof. intros H. unfold body_of_size. rewrite repeat_length. apply Z2Nat.id. exact H. Qed.

Section ClientFacts.

Variable key : option pystr.
Variable net : network.

(** A stream whose body downloads is a response read in full. *)
Lemma stream_whole (s : stream) body :
  stream_body s = Ok body ->
  s = whole (mkResponse (stream_status s) body (Raise JSONDecodeError)).
Proof. destruct s as [st b]. cbn. intros ->. reflexivity. Qed.

(** The client yields nothing and allocates nothing, or yields the
    buffer it has just allocated, holding a body that passed the size
    test, together with the name derived from the URL, or raises and
    allocates nothing. *)
Lemma call_download_api_cases url w :
  let res := call_download_api key net url w in
  (snd res = Ok (None, None) /\ heap (fst res) = heap w) \/
  (exists r2,
      snd res = Ok (Some (length (heap w)), Some (track_name_of url)) /\
      heap (fst res) =
        heap w ++ [mkBytesIO (content r2) (Some (track_name_of url ++ L ".mp3")) 0 false] /\
      Qgt_bool (file_size_mb_of (content r2)) 50 = false) \/
  (exists e, snd res = Raise e /\ heap (fst res) = heap w).
Proof.
  exec_m; try (left; split; reflexivity);
    try (right; right; eexists; split; reflexivity).
  right. left.
  match goal with H : stream_body _ = Ok ?l |- _ =>
    exists (mkResponse 0 l (Raise JSONDecodeError)) end.
  split; [reflexivity|]. split; [reflexivity|assumption].
Qed.

(** What the client does once both phases have answered: the size test
    alone decides. *)
Lemma call_download_api_fetched url w r1 fields (r2 : response) :
  net_post net DOWNLOAD_API_ENDPOINT url = Ok r1 ->
  ((400 <=? status_code r1) && (status_code r1 <? 600))%Z = false ->
  json_body r1 = Ok (JObj fields) ->
  is_True (dict_get fields (L "error") JNull) = false ->
  truthy (dict_get fields (L "url") JNull) = true ->
  truthy (dict_get fields (L "payload") JNull) = true ->
  net_get net (dict_get fields (L "url") JNull) (dict_get fields (L "payload") JNull) = Ok r2 ->
  ((400 <=? status_code r2) && (status_code r2 <? 600))%Z = false ->
  let t := [Log INFO (LogAttempt url);
            HttpPost DOWNLOAD_API_ENDPOINT key DOWNLOAD_API_HOST url 30;
            Log INFO LogStep1Success;
            HttpGet (dict_get fields (L "url") JNull) (dict_get fields (L "payload") JNull) 60;
            Log INFO (LogFileSize (file_size_mb_of (content r2)))] in
  call_download_api key net url w =
  if (CEILING <? Z.of_nat (length (content r2)))%Z
  then (mkWorld (heap w)
                (trace w ++ t ++ [Log ERROR (LogTooLarge (file_size_mb_of (content r2)))]),
        Ok (None, None))
  else (mkWorld (heap w ++ [mkBytesIO (content r2) (Some (track_name_of url ++ L ".mp3")) 0 false])
                (trace w ++ t ++ [Log INFO (LogDownloaded (track_name_of url ++ L ".mp3"))]),
        Ok (Some (length (heap w)), Some (track_name_of url))).
Proof.
  intros Hpost Hst1 Hjson Herr Hurl Hpay Hget Hst2 t. subst t.
  rewrite <- size_test.
  unfold_m. simpl_m.
  rewrite Hpost. simpl_m. rewrite Hst1. simpl_m. rewrite Hjson. simpl_m.
  rewrite Herr. simpl_m. rewrite Hurl. simpl_m. rewrite Hpay. simpl_m.
  rewrite Hget. simpl_m. rewrite Hst2. simpl_m.
  destruct (Qgt_bool (file_size_mb_of (content r2)) 50); simpl_m.
  - rewrite <- !app_assoc. reflexivity.
  - rewrite nth_error_alloc. simpl_m. rewrite heap_set_alloc, nth_error_alloc. simpl_m.
    rewrite heap_set_alloc. rewrite <- !app_assoc. reflexivity.
Qed.

End ClientFacts.

Ltac finish_trace :=
  eexists; split; [rewrite <- ?app_assoc; reflexivity | split; reflexivity].

(** C2. When the Phase-1 response carries a JSON object that signals an
    explicit error flag, or has no non-empty [url], or has no [payload], the
    client issues no Phase-2 fetch and returns absence: it returns
    [(None, None)] (no exception escapes), the only failure it records is a
    [RemoteRejection], and no buffer is allocated. *)
Theorem phase1_rejection_short_circuits key net url w r1 fields :
  net_post net DOWNLOAD_API_ENDPOINT url = Ok r1 ->
  json_body r1 = Ok (JObj fields) ->
  dict_get fields (L "error") JNull = JBool true \/
  truthy (dict_get fields (L "url") JNull) = false \/
  truthy (dict_get fields (L "payload") JNull) = false ->
  exists t,
    call_download_api key net url w = (mkWorld (heap w) (trace w ++ t), Ok (None, None)) /\
    existsb is_fetch t = false /\
    failures t = [RemoteRejection].
Proof.
  intros Hpost Hjson H.
  unfold_m. simpl_m. rewrite Hpost. simpl_m.
  destruct ((400 <=? status_code r1)%Z && (status_code r1 <? 600)%Z); simpl_m;
    [finish_trace|].
  rewrite Hjson. simpl_m.
  destruct H as [H|[H|H]]; rewrite ?H; simpl_m.
  - finish_trace.
  - destruct (is_True (dict_get fields (L "error") JNull)); simpl_m; finish_trace.
  - destruct (is_True (dict_get fields (L "error") JNull)); simpl_m; [finish_trace|].
    destruct (truthy (dict_get fields (L "url") JNull)); simpl_m; finish_trace.
Qed.

Lemma phase1_rejection_short_circuits_witness :
  exists t,
    call_download_api None service_error (L "https://open.spotify.com/track/abc123") empty_world
    = (mkWorld (heap empty_world) (trace empty_world ++ t), Ok (None, None)) /\
    existsb is_fetch t = false /\
    failures t = [RemoteRejection].
Proof.
  apply (phase1_rejection_short_circuits None service_error
           (L "https://open.spotify.com/track/abc123") empty_world
           (mkResponse 200 []
              (Ok (JObj [(L "error", JBool true); (L "message", JStr (L "bad link"))])))
           [(L "error", JBool true); (L "message", JStr (L "bad link"))]).
  - reflexivity.
  - reflexivity.
  - left. reflexivity.
Defined.

(** C8. A Phase-1 call (issued with the timeout of 30) that times out is
    recorded as a [TransportFailure], not as a [RemoteRejection]; the client
    returns absence at once, without a Phase-2 fetch. *)
Theorem phase1_timeout_is_transport_failure key net url w :
  net_post net DOWNLOAD_API_ENDPOINT url = Raise Timeout ->
  let t := [Log INFO (LogAttempt url);
            HttpPost DOWNLOAD_API_ENDPOINT key DOWNLOAD_API_HOST url 30;
            Log ERROR LogTimedOut] in
  call_download_api key net url w = (mkWorld (heap w) (trace w ++ t), Ok (None, None)) /\
  failures t = [TransportFailure] /\
  ~ In RemoteRejection (failures t) /\
  existsb is_fetch t = false.
Proof.
  intros Hpost t. subst t. split.
  - unfold_m. simpl_m. rewrite Hpost. simpl_m. rewrite <- !app_assoc. reflexivity.
  - split; [reflexivity|]. split; [|reflexivity].
    simpl. intros [H|[]]. discriminate.
Qed.

Lemma phase1_timeout_is_transport_failure_witness :
  let url := L "https://open.spotify.com/track/abc123" in
  let t := [Log INFO (LogAttempt url);
            HttpPost DOWNLOAD_API_ENDPOINT None DOWNLOAD_API_HOST url 30;
            Log ERROR LogTimedOut] in
  call_download_api None service_timeout url empty_world
  = (mkWorld (heap empty_world) (trace empty_world ++ t), Ok (None, None)) /\
  failures t = [TransportFailure] /\
  ~ In RemoteRejection (failures t) /\
  existsb is_fetch t = false.
Proof.
  exact (phase1_timeout_is_transport_failure None service_timeout
           (L "https://open.spotify.com/track/abc123") empty_world eq_refl).
Defined.

(** When the client yields nothing, the handling layer uploads nothing. *)
Lemma process_spotify_link_absent key net tg u url w :
  (forall w1, exists t,
      call_download_api key net url w1 = (mkWorld (heap w1) (trace w1 ++ t), Ok (None, None)) /\
      existsb is_upload t = false) ->
  exists t', trace (fst (process_spotify_link key net tg u url w)) = trace w ++ t' /\
             existsb is_upload t' = false.
Proof.
  intros Hc. unfold process_spotify_link, reply_text, emit, lift, bind. simpl_m.
  destruct (tg_reply_text tg MSG_STATUS) as [status|e]; simpl_m.
  - match goal with |- context [call_download_api key net url ?w1] =>
      destruct (Hc w1) as (t & -> & Ht) end.
    unfold edit_message_text, emit, lift, bind. simpl_m.
    eexists. split.
    + destruct (tg_edit_message_text tg (message_chat_id u) status MSG_DOWNLOAD_FAILED);
        simpl_m; rewrite <- !app_assoc; reflexivity.
    + rewrite !existsb_app, Ht. reflexivity.
  - exists [ReplyText MSG_STATUS]. split; reflexivity.
Qed.

(** C3. Once both phases have answered, the size of the fetched body alone
    decides, with 50 MiB (52428800 bytes) as an inclusive boundary: a body of
    at most 50 MiB, hence one of exactly 50 MiB, is returned as the payload;
    a longer one, hence one of 50 MiB + 1 byte, gives absence, recorded as
    [PayloadTooLarge], and the handling layer attempts no upload. *)
Theorem size_ceiling_inclusive key net url w r1 fields (r2 : response) :
  net_post net DOWNLOAD_API_ENDPOINT url = Ok r1 ->
  ((400 <=? status_code r1) && (status_code r1 <? 600))%Z = false ->
  json_body r1 = Ok (JObj fields) ->
  is_True (dict_get fields (L "error") JNull) = false ->
  truthy (dict_get fields (L "url") JNull) = true ->
  truthy (dict_get fields (L "payload") JNull) = true ->
  net_get net (dict_get fields (L "url") JNull) (dict_get fields (L "payload") JNull) = Ok r2 ->
  ((400 <=? status_code r2) && (status_code r2 <? 600))%Z = false ->
  CEILING = 52428800%Z /\
  ((Z.of_nat (length (content r2)) <= CEILING)%Z ->
   exists t,
     call_download_api key net url w =
       (mkWorld (heap w ++ [mkBytesIO (content r2) (Some (track_name_of url ++ L ".mp3")) 0 false])
                (trace w ++ t),
        Ok (Some (length (heap w)), Some (track_name_of url))) /\
     failures t = []) /\
  ((CEILING < Z.of_nat (length (content r2)))%Z ->
   (exists t,
      call_download_api key net url w = (mkWorld (heap w) (trace w ++ t), Ok (None, None)) /\
      failures t = [PayloadTooLarge]) /\
   forall tg u, exists t',
      trace (fst (process_spotify_link key net tg u url w)) = trace w ++ t' /\
      existsb is_upload t' = false).
Proof.
  intros Hpost Hst1 Hjson Herr Hurl Hpay Hget Hst2.
  pose proof (fun w => call_download_api_fetched key net url w r1 fields r2
                         Hpost Hst1 Hjson Herr Hurl Hpay Hget Hst2) as E.
  cbv zeta in E.
  split; [reflexivity|]. split.
  - intros Hle. apply Z.ltb_ge in Hle. rewrite E, Hle.
    eexists. split; reflexivity.
  - intros Hgt. apply Z.ltb_lt in Hgt. split.
    + rewrite E, Hgt. eexists. split; reflexivity.
    + intros tg u. apply process_spotify_link_absent.
      intros w1. rewrite E, Hgt. eexists. split; reflexivity.
Qed.

Lemma content_mkResponse s c j : content (mkResponse s c j) = c.
Proof. reflexivity. Qed.

Lemma size_ceiling_inclusive_witness :
  let url := L "https://open.spotify.com/track/abc123" in
  (exists t,
     call_download_api None (service_ok (body_of_size CEILING)) url empty_world =
       (mkWorld (heap empty_world ++
                 [mkBytesIO (body_of_size CEILING) (Some (track_name_of url ++ L ".mp3")) 0 false])
                (trace empty_world ++ t),
        Ok (Some (length (heap empty_world)), Some (track_name_of url))) /\
     failures t = []) /\
  (exists t,
     call_download_api None (service_ok (body_of_size (CEILING + 1))) url empty_world =
       (mkWorld (heap empty_world) (trace empty_world ++ t), Ok (None, None)) /\
     failures t = [PayloadTooLarge]).
Proof.
  intros url.
  pose (fields := [(L "error", JBool false);
                   (L "url", JStr (L "https://cdn.example/file"));
                   (L "payload", JStr (L "token"))]).
  pose (r1 := mkResponse 200 [] (Ok (JObj fields))).
  split.
  - destruct (size_ceiling_inclusive None (service_ok (body_of_size CEILING)) url empty_world
                r1 fields (mkResponse 200 (body_of_size CEILING) (Raise JSONDecodeError))
                eq_refl eq_refl eq_refl eq_refl eq_refl eq_refl eq_refl eq_refl)
      as (_ & Hacc & _).
    rewrite content_mkResponse in Hacc. apply Hacc.
    rewrite length_body_of_size; [apply Z.le_refl|discriminate].
  - destruct (size_ceiling_inclusive None (service_ok (body_of_size (CEILING + 1))) url
                empty_world
                r1 fields (mkResponse 200 (body_of_size (CEILING + 1)) (Raise JSONDecodeError))
                eq_refl eq_refl eq_refl eq_refl eq_refl eq_refl eq_refl eq_refl)
      as (_ & _ & Hrej).
    rewrite content_mkResponse in Hrej. apply Hrej.
    rewrite length_body_of_size; [apply Z.lt_succ_diag_r|discriminate].
Defined.

(** C5, as the code has it.  Every payload the client returns is an open
    buffer whose size does not exceed 50 MiB.  (The client does not test that
    the fetched body is non-empty.) *)
Theorem payload_within_ceiling key net url w audio name :
  snd (call_download_api key net url w) = Ok (Some audio, name) ->
  exists b,
    nth_error (heap (fst (call_download_api key net url w))) audio = Some b /\
    (Z.of_nat (length (getvalue b)) <= CEILING)%Z /\
    closed b = false.
Proof.
  intros H.
  destruct (call_download_api_cases key net url w)
    as [[E _]|[(r2 & E & Eh & Hsz)|(e & E & _)]];
    rewrite E in H; [discriminate| |discriminate].
  injection H as <- <-. rewrite Eh, nth_error_alloc.
  eexists. split; [reflexivity|]. split; [|reflexivity].
  cbn [getvalue]. rewrite size_test in Hsz. apply Z.ltb_ge. exact Hsz.
Qed.

Lemma payload_within_ceiling_witness :
  let res := call_download_api None (service_ok [Byte.x49; Byte.x44; Byte.x33])
               (L "https://open.spotify.com/track/abc123") empty_world in
  exists b,
    nth_error (heap (fst res)) 0 = Some b /\
    (Z.of_nat (length (getvalue b)) <= CEILING)%Z /\
    closed b = false.
Proof.
  exact (payload_within_ceiling None (service_ok [Byte.x49; Byte.x44; Byte.x33])
           (L "https://open.spotify.com/track/abc123") empty_world 0
           (Some (L "Track_abc123")) eq_refl).
Defined.

(** C5 as stated fails: when Phase 2 answers with an empty body, the client
    returns a payload whose bytes are empty. *)
Lemma payload_may_be_empty :
  ~ (forall key net url w audio name b,
        snd (call_download_api key net url w) = Ok (Some audio, name) ->
        nth_error (heap (fst (call_download_api key net url w))) audio = Some b ->
        getvalue b <> [] /\ (Z.of_nat (length (getvalue b)) <= CEILING)%Z).
Proof.
  intros H.
  destruct (H None (service_ok []) (L "https://open.spotify.com/track/abc123") empty_world
              0 (Some (L "Track_abc123"))
              (mkBytesIO [] (Some (L "Track_abc123.mp3")) 0 false) eq_refl eq_refl)
    as [Hne _].
  apply Hne. reflexivity.
Qed.

(** An exception leaves the client only from its second [except] clause,
    at the read of [e.response.text]: the [try] block, which starts once the
    attempt has been logged, has raised an [HTTPError] whose response body
    could not be read. *)
Lemma client_raises key net url w e :
  snd (call_download_api key net url w) = Raise e ->
  exists st,
    snd (call_download_api_body key net url
           (mkWorld (heap w) (trace w ++ [Log INFO (LogAttempt url)]))) =
    Raise (HTTPErrorUnread st e).
Proof.
  unfold call_download_api, log, emit, bind, try_except. cbn [fst snd heap trace].
  destruct (call_download_api_body key net url _) as [w2 [a|e0]]; cbn [snd].
  - intros H. discriminate.
  - unfold call_download_api_handler, log, emit, lift, bind, ret.
    destruct e0; cbn; intros H; try discriminate.
    injection H as <-. eexists. reflexivity.
Qed.

(** C6, as the code has it.  Whenever the client returns, it returns
    absence of both components, with no buffer allocated, or both of them:
    the buffer it has just allocated, open and named, and the suggested
    name; on full success (both phases answered without an error status, the
    body downloaded and within the ceiling) it returns the complete payload.
    But it does not return on every invocation.  When Phase 1 has answered
    with a location and a token, and Phase 2 answers with a 4xx or 5xx status
    and a body whose download fails with [e], [raise_for_status] raises, the
    second [except] clause logs the error and the status code, then reads
    [e.response.text] (line 122), which downloads the body: [e] is raised
    inside the clause and leaves the client.  The caller gets no result,
    neither a payload nor absence, although the failure is one of the
    classified ones (a non-success status).  That read is the only place an
    exception leaves the client from. *)
Theorem client_result_or_escape key net url w :
  let res := call_download_api key net url w in
  (forall audio track_name,
      snd res = Ok (audio, track_name) ->
      (audio = None /\ track_name = None /\ heap (fst res) = heap w) \/
      (exists b,
          audio = Some (length (heap w)) /\ track_name = Some (track_name_of url) /\
          heap (fst res) = heap w ++ [b] /\
          name b = Some (track_name_of url ++ L ".mp3") /\ closed b = false)) /\
  (forall r1 fields,
      net_post net DOWNLOAD_API_ENDPOINT url = Ok r1 ->
      ((400 <=? status_code r1) && (status_code r1 <? 600))%Z = false ->
      json_body r1 = Ok (JObj fields) ->
      is_True (dict_get fields (L "error") JNull) = false ->
      truthy (dict_get fields (L "url") JNull) = true ->
      truthy (dict_get fields (L "payload") JNull) = true ->
      forall s,
        net_get net (dict_get fields (L "url") JNull) (dict_get fields (L "payload") JNull)
        = Ok s ->
        (((400 <=? stream_status s) && (stream_status s <? 600))%Z = false ->
         forall body,
           stream_body s = Ok body ->
           (Z.of_nat (length body) <= CEILING)%Z ->
           snd res = Ok (Some (length (heap w)), Some (track_name_of url)) /\
           heap (fst res) =
             heap w ++ [mkBytesIO body (Some (track_name_of url ++ L ".mp3")) 0 false]) /\
        (((400 <=? stream_status s) && (stream_status s <? 600))%Z = true ->
         forall e,
           stream_body s = Raise e ->
           res =
             (mkWorld (heap w)
                (trace w ++
                 [Log INFO (LogAttempt url);
                  HttpPost DOWNLOAD_API_ENDPOINT key DOWNLOAD_API_HOST url 30;
                  Log INFO LogStep1Success;
                  HttpGet (dict_get fields (L "url") JNull)
                    (dict_get fields (L "payload") JNull) 60;
                  Log ERROR (LogCallError (HTTPErrorUnread (stream_status s) e));
                  Log ERROR (LogResponseCode (stream_status s))]),
              Raise e))) /\
  (forall e,
      snd res = Raise e ->
      exists st,
        snd (call_download_api_body key net url
               (mkWorld (heap w) (trace w ++ [Log INFO (LogAttempt url)]))) =
        Raise (HTTPErrorUnread st e)).
Proof.
  cbv zeta. split; [|split].
  - intros audio track_name H.
    destruct (call_download_api_cases key net url w)
      as [[E Eh]|[(r2 & E & Eh & _)|(e & E & _)]]; rewrite E in H.
    + injection H as <- <-. left. repeat split. exact Eh.
    + injection H as <- <-. right. eexists. split; [reflexivity|].
      split; [reflexivity|]. split; [exact Eh|]. split; reflexivity.
    + discriminate.
  - intros r1 fields Hpost Hst1 Hjson Herr Hurl Hpay s Hget. split.
    + intros Hst2 body Hbody Hle.
      rewrite (stream_whole s body Hbody) in Hget.
      rewrite (call_download_api_fetched key net url w r1 fields _
                 Hpost Hst1 Hjson Herr Hurl Hpay Hget Hst2).
      cbn [content]. apply Z.ltb_ge in Hle. rewrite Hle. split; reflexivity.
    + intros Hst2 e Hbody.
      unfold_m. simpl_m.
      rewrite Hpost. simpl_m. rewrite Hst1. simpl_m. rewrite Hjson. simpl_m.
      rewrite Herr. simpl_m. rewrite Hurl. simpl_m. rewrite Hpay. simpl_m.
      rewrite Hget. simpl_m. rewrite Hst2. simpl_m. rewrite Hbody. simpl_m.
      rewrite <- !app_assoc. reflexivity.
  - intros e. apply client_raises.
Qed.

Lemma client_result_or_escape_witness :
  let url := L "https://open.spotify.com/track/abc123" in
  call_download_api None service_broken url empty_world =
    (mkWorld []
       [Log INFO (LogAttempt url);
        HttpPost DOWNLOAD_API_ENDPOINT None DOWNLOAD_API_HOST url 30;
        Log INFO LogStep1Success;
        HttpGet (JStr (L "https://cdn.example/file")) (JStr (L "token")) 60;
        Log ERROR (LogCallError (HTTPErrorUnread 502 ConnectionError));
        Log ERROR (LogResponseCode 502)],
     Raise ConnectionError).
Proof.
  intros url.
  exact (proj2 (proj1 (proj2 (client_result_or_escape None service_broken url empty_world))
                  (mkResponse 200 []
                     (Ok (JObj [(L "error", JBool false);
                                (L "url", JStr (L "https://cdn.example/file"));
                                (L "payload", JStr (L "token"))])))
                  [(L "error", JBool false);
                   (L "url", JStr (L "https://cdn.example/file"));
                   (L "payload", JStr (L "token"))]
                  eq_refl eq_refl eq_refl eq_refl eq_refl eq_refl
                  (mkStream 502 (Raise ConnectionError)) eq_refl)
           eq_refl ConnectionError eq_refl).
Defined.

(** * Facts about the filename derivation *)

Section SplitFacts.

Variable sep : ascii.

Lemma split_nonempty s : split sep s <> [].
Proof.
  destruct s as [|c t]; simpl; [discriminate|].
  destruct (Ascii.eqb c sep); [discriminate|].
  destruct (split sep t); discriminate.
Qed.

(** [split] undoes [join]: the pieces, joined by the separator, give the
    string back. *)
Lemma split_join s : join sep (split sep s) = s.
Proof.
  induction s as [|c t IH]; simpl; [reflexivity|].
  pose proof (split_nonempty t) as Hne.
  destruct (Ascii.eqb_spec c sep) as [->|Hc].
  - destruct (split sep t) as [|h r]; [congruence|].
    cbn [join app]. cbn [join] in IH. rewrite IH. reflexivity.
  - destruct (split sep t) as [|h r]; [congruence|].
    destruct r as [|h' r']; cbn [join app] in *; rewrite IH; reflexivity.
Qed.

Lemma split_no_sep s : Forall (fun x => ~ In sep x) (split sep s).
Proof.
  induction s as [|c t IH]; simpl.
  - constructor; [intros []|constructor].
  - destruct (Ascii.eqb_spec c sep) as [->|Hc].
    + constructor; [intros []|assumption].
    + destruct (split sep t) as [|h r]; [constructor; [|constructor]|].
      * intros [H|[]]. congruence.
      * inversion IH as [|? ? Hh Hr]. subst. constructor; [|assumption].
        intros [H|H]; [congruence|auto].
Qed.

Lemma join_snoc init seg :
  init <> [] -> join sep (init ++ [seg]) = join sep init ++ sep :: seg.
Proof.
  induction init as [|x init IH]; [congruence|]. intros _.
  destruct init as [|y init'].
  - reflexivity.
  - change (join sep ((x :: y :: init') ++ [seg]))
      with (x ++ sep :: join sep ((y :: init') ++ [seg])).
    rewrite IH by discriminate.
    change (join sep (x :: y :: init')) with (x ++ sep :: join sep (y :: init')).
    rewrite <- app_assoc. reflexivity.
Qed.

(** [s.split(sep)[-1]] is what follows the last separator of [s]. *)
Lemma last_segment s :
  exists seg, item_last (split sep s) = Ok seg /\ ~ In sep seg /\
              (s = seg \/ exists pre, s = pre ++ sep :: seg).
Proof.
  pose proof (split_nonempty s) as Hne.
  pose proof (split_join s) as Hj.
  pose proof (split_no_sep s) as Hn.
  destruct (exists_last Hne) as (init & seg & E). rewrite E in *.
  exists seg. split; [|split].
  - unfold item_last. rewrite rev_app_distr. reflexivity.
  - apply Forall_app in Hn. destruct Hn as [_ Hn]. inversion Hn. assumption.
  - destruct init as [|x init'].
    + left. symmetry. exact Hj.
    + right. rewrite join_snoc in Hj by discriminate. eauto.
Qed.

(** [s.split(sep)[0]] is what precedes the first separator of [s]. *)
Lemma first_segment s :
  exists id, item_first (split sep s) = Ok id /\ ~ In sep id /\
             (s = id \/ exists q, s = id ++ sep :: q).
Proof.
  pose proof (split_nonempty s) as Hne.
  pose proof (split_join s) as Hj.
  pose proof (split_no_sep s) as Hn.
  destruct (split sep s) as [|id rest]; [congruence|].
  exists id. split; [reflexivity|]. split.
  - inversion Hn. assumption.
  - destruct rest as [|y rest'].
    + left. symmetry. exact Hj.
    + right. exists (join sep (y :: rest')). symmetry. exact Hj.
Qed.

End SplitFacts.

(** C4, as the code has it.  For every source URL the extraction succeeds:
    the suggested name is the fixed label [Track_] followed by the last
    [/]-separated segment of the URL cut at its first [?]; the derivation
    raises nothing, and the generic name is the result for no string at all
    (it is kept for an extraction that raises, which none does). *)
Theorem track_name_derivation (spotify_url : pystr) :
  exists seg track_id,
    track_id_of spotify_url = Ok track_id /\
    track_name_of spotify_url = L "Track_" ++ track_id /\
    track_name_of spotify_url <> L "Downloaded_Track" /\
    (spotify_url = seg \/ exists pre, spotify_url = pre ++ L "/" ++ seg) /\
    ~ In "/"%char seg /\
    (seg = track_id \/ exists q, seg = track_id ++ L "?" ++ q) /\
    ~ In "?"%char track_id.
Proof.
  destruct (last_segment "/" spotify_url) as (seg & Hl & Hns & Hs).
  destruct (first_segment "?" seg) as (id & Hf & Hnq & Hq).
  exists seg, id.
  assert (E : track_id_of spotify_url = Ok id).
  { unfold track_id_of. rewrite Hl. exact Hf. }
  unfold track_name_of. rewrite E.
  repeat split; auto. discriminate.
Qed.

(** C4 as stated fails on its own example: the extraction succeeds on the
    empty string, with an empty segment, and the name is [Track_], not the
    generic name. *)
Lemma empty_url_gets_no_fallback :
  track_id_of (L "") = Ok (L "") /\
  track_name_of (L "") = L "Track_" /\
  track_name_of (L "") <> L "Downloaded_Track".
Proof. repeat split. discriminate. Qed.

Example track_name_plain :
  track_name_of (L "https://open.spotify.com/track/xyz789") = L "Track_xyz789".
Proof. reflexivity. Qed.

Example track_name_query :
  track_name_of (L "https://open.spotify.com/track/abc123?si=xyz789&nd=1") = L "Track_abc123".
Proof. reflexivity. Qed.

(** * Facts about the handlers *)






Lemma nth_error_heap_set (h : list BytesIO) r b x :
  nth_error h r = Some b -> nth_error (heap_set h r x) r = Some x.
Proof.
  revert r. induction h as [|y h IH]; intros [|r] H; simpl in *; try discriminate.
  - reflexivity.
  - apply IH. exact H.
Qed.

(** The delivery step, path by path: the buffer is closed on each of them. *)
Lemma deliver_runs tg u status audio track_name w b :
  nth_error (heap w) audio = Some b ->
  let closed_heap :=
    heap_set (heap w) audio (mkBytesIO (getvalue b) (name b) (tell b) true) in
  let up := ReplyAudio audio (mp3_name track_name) 120 in
  let ed := EditMessageText (message_chat_id u) status MSG_SUCCESS in
  let failed e := [Log ERROR (LogSendFailed e); ReplyText MSG_UPLOAD_FAILED] in
  let after_reply :=
    match tg_reply_text tg MSG_UPLOAD_FAILED with
    | Ok _ => Ok tt
    | Raise e' => Raise e'
    end in
  deliver tg u status audio track_name w =
  match tg_reply_audio tg (getvalue b) (mp3_name track_name) with
  | Ok _ =>
      match tg_edit_message_text tg (message_chat_id u) status MSG_SUCCESS with
      | Ok _ => (mkWorld closed_heap (trace w ++ [up; ed]), Ok tt)
      | Raise e => (mkWorld closed_heap (trace w ++ [up; ed] ++ failed e), after_reply)
      end
  | Raise e => (mkWorld closed_heap (trace w ++ [up] ++ failed e), after_reply)
  end.
Proof.
  intros Hb. cbv zeta. unfold deliver. unfold_m. simpl_m. rewrite Hb. simpl_m.
  destruct (tg_reply_audio tg (getvalue b) (mp3_name track_name)) as [[]|e]; simpl_m.
  - destruct (tg_edit_message_text tg (message_chat_id u) status MSG_SUCCESS) as [[]|e];
      simpl_m.
    + rewrite Hb. simpl_m. rewrite <- !app_assoc. reflexivity.
    + destruct (tg_reply_text tg MSG_UPLOAD_FAILED); simpl_m; rewrite Hb; simpl_m;
        rewrite <- !app_assoc; reflexivity.
  - destruct (tg_reply_text tg MSG_UPLOAD_FAILED); simpl_m; rewrite Hb; simpl_m;
      rewrite <- !app_assoc; reflexivity.
Qed.

(** C9. Whatever the chat platform answers to the upload, to the edit of the
    status message and to the failure reply, the delivery step ends with the
    payload buffer closed. *)
Theorem delivery_releases_buffer tg u status audio track_name w b :
  nth_error (heap w) audio = Some b ->
  exists b',
    nth_error (heap (fst (deliver tg u status audio track_name w))) audio = Some b' /\
    closed b' = true /\
    getvalue b' = getvalue b.
Proof.
  intros Hb. rewrite (deliver_runs tg u status audio track_name w b Hb).
  exists (mkBytesIO (getvalue b) (name b) (tell b) true).
  split; [|split; reflexivity].
  destruct (tg_reply_audio tg (getvalue b) (mp3_name track_name)) as [[]|e];
    [destruct (tg_edit_message_text tg (message_chat_id u) status MSG_SUCCESS) as [[]|e]|];
    cbn [fst heap]; apply nth_error_heap_set with (b := b); exact Hb.
Qed.

Lemma delivery_releases_buffer_witness :
  let w := mkWorld [mkBytesIO [Byte.x49; Byte.x44; Byte.x33] (Some (L "Track_abc123.mp3")) 0 false] [] in
  exists b',
    nth_error (heap (fst (deliver chat_upload_fails (mkUpdate (Some (L "x")) 1) 7%Z 0
                            (Some (L "Track_abc123")) w))) 0 = Some b' /\
    closed b' = true /\
    getvalue b' = [Byte.x49; Byte.x44; Byte.x33].
Proof.
  exact (delivery_releases_buffer chat_upload_fails (mkUpdate (Some (L "x")) 1) 7%Z 0
           (Some (L "Track_abc123"))
           (mkWorld [mkBytesIO [Byte.x49; Byte.x44; Byte.x33] (Some (L "Track_abc123.mp3")) 0 false] [])
           (mkBytesIO [Byte.x49; Byte.x44; Byte.x33] (Some (L "Track_abc123.mp3")) 0 false)
           eq_refl).
Defined.

(** Processing a link leaves no buffer open: whatever the service and the
    chat platform answer, every buffer allocated on the way is closed at the
    end. *)
Lemma process_spotify_link_leaves_no_open_buffer key net tg u url w :
  Forall (fun b => closed b = true)
         (skipn (length (heap w)) (heap (fst (process_spotify_link key net tg u url w)))).
Proof.
  unfold process_spotify_link, reply_text, emit, lift, bind. simpl_m.
  destruct (tg_reply_text tg MSG_STATUS) as [status|e]; simpl_m.
  2:{ rewrite skipn_all. constructor. }
  match goal with |- context [call_download_api key net url ?w1] =>
    pose proof (call_download_api_cases key net url w1) as C;
    destruct (call_download_api key net url w1) as [w2 r] eqn:E end.
  cbn [fst snd heap] in C.
  destruct C as [[-> Hh]|[(r2 & -> & Hh & _)|(e & -> & Hh)]]; cbn [fst snd].
  3:{ rewrite Hh, skipn_all. constructor. }
  - unfold edit_message_text, emit, lift, bind. simpl_m.
    destruct (tg_edit_message_text tg (message_chat_id u) status MSG_DOWNLOAD_FAILED);
      simpl_m; rewrite Hh, skipn_all; constructor.
  - assert (Hb : nth_error (heap w2) (length (heap w)) =
                 Some (mkBytesIO (content r2) (Some (track_name_of url ++ L ".mp3")) 0 false)).
    { rewrite Hh. apply nth_error_alloc. }
    rewrite (deliver_runs tg u status _ _ w2 _ Hb). rewrite Hh, heap_set_alloc.
    destruct (tg_reply_audio tg _ _) as [[]|e];
      [destruct (tg_edit_message_text tg _ _ _) as [[]|e]|];
      cbn [fst heap]; rewrite skipn_app, skipn_all, Nat.sub_diag; cbn [skipn app];
      constructor; try reflexivity; constructor.
Qed.

Lemma messages_distinct :
  MSG_UPLOAD_FAILED <> MSG_SUCCESS /\ MSG_UPLOAD_FAILED <> MSG_DOWNLOAD_FAILED.
Proof. split; intros H; vm_compute in H; discriminate. Qed.

(** C10. In the delivery step the status message is set to the success text
    only after the upload has completed without error; when the upload
    raises, the status message is never set to the success text, and the
    delivery-failure reply, a text of its own, is sent instead. *)
Theorem success_edit_only_after_upload tg u status audio track_name w b :
  nth_error (heap w) audio = Some b ->
  exists t,
    trace (fst (deliver tg u status audio track_name w)) = trace w ++ t /\
    (forall pre post chat_id message_id,
        t = pre ++ EditMessageText chat_id message_id MSG_SUCCESS :: post ->
        tg_reply_audio tg (getvalue b) (mp3_name track_name) = Ok tt /\
        In (ReplyAudio audio (mp3_name track_name) 120) pre) /\
    (forall e,
        tg_reply_audio tg (getvalue b) (mp3_name track_name) = Raise e ->
        (forall chat_id message_id, ~ In (EditMessageText chat_id message_id MSG_SUCCESS) t) /\
        In (ReplyText MSG_UPLOAD_FAILED) t) /\
    MSG_UPLOAD_FAILED <> MSG_SUCCESS /\
    MSG_UPLOAD_FAILED <> MSG_DOWNLOAD_FAILED.
Proof.
  intros Hb. rewrite (deliver_runs tg u status audio track_name w b Hb).
  destruct (tg_reply_audio tg (getvalue b) (mp3_name track_name)) as [[]|e].
  - assert (Hpre : forall rest pre post chat_id message_id,
               ReplyAudio audio (mp3_name track_name) 120 :: rest =
               pre ++ EditMessageText chat_id message_id MSG_SUCCESS :: post ->
               In (ReplyAudio audio (mp3_name track_name) 120) pre).
    { intros rest [|x pre] post c m H; simpl in H; [discriminate|].
      injection H as <- _. left. reflexivity. }
    destruct (tg_edit_message_text tg (message_chat_id u) status MSG_SUCCESS) as [[]|e];
      eexists; (split; [reflexivity|]); (split; [|split; [|exact messages_distinct]]).
    + intros pre post c m H. split; [reflexivity|]. exact (Hpre _ _ _ _ _ H).
    + intros e H. discriminate.
    + intros pre post c m H. split; [reflexivity|]. exact (Hpre _ _ _ _ _ H).
    + intros e' H. discriminate.
  - exists [ReplyAudio audio (mp3_name track_name) 120;
            Log ERROR (LogSendFailed e); ReplyText MSG_UPLOAD_FAILED].
    split; [reflexivity|]. split; [|split; [|exact messages_distinct]].
    + intros pre post c m H. exfalso.
      assert (Hin : In (EditMessageText c m MSG_SUCCESS)
                       [ReplyAudio audio (mp3_name track_name) 120;
                        Log ERROR (LogSendFailed e); ReplyText MSG_UPLOAD_FAILED]).
      { rewrite H. apply in_elt. }
      destruct Hin as [Hin|[Hin|[Hin|[]]]]; discriminate.
    + intros e' _. split.
      * intros c m [Hin|[Hin|[Hin|[]]]]; discriminate.
      * right. right. left. reflexivity.
Qed.

Lemma success_edit_only_after_upload_witness :
  let buf := mkBytesIO [Byte.x49; Byte.x44; Byte.x33] (Some (L "Track_abc123.mp3")) 0 false in
  let w := mkWorld [buf] [] in
  let tg := chat_upload_fails in
  let track_name := Some (L "Track_abc123") in
  exists t,
    trace (fst (deliver tg (mkUpdate (Some (L "x")) 1) 7%Z 0 track_name w)) = trace w ++ t /\
    (forall pre post chat_id message_id,
        t = pre ++ EditMessageText chat_id message_id MSG_SUCCESS :: post ->
        tg_reply_audio tg (getvalue buf) (mp3_name track_name) = Ok tt /\
        In (ReplyAudio 0 (mp3_name track_name) 120) pre) /\
    (forall e,
        tg_reply_audio tg (getvalue buf) (mp3_name track_name) = Raise e ->
        (forall chat_id message_id, ~ In (EditMessageText chat_id message_id MSG_SUCCESS) t) /\
        In (ReplyText MSG_UPLOAD_FAILED) t) /\
    MSG_UPLOAD_FAILED <> MSG_SUCCESS /\
    MSG_UPLOAD_FAILED <> MSG_DOWNLOAD_FAILED.
Proof.
  exact (success_edit_only_after_upload chat_upload_fails (mkUpdate (Some (L "x")) 1) 7%Z 0
           (Some (L "Track_abc123"))
           (mkWorld [mkBytesIO [Byte.x49; Byte.x44; Byte.x33] (Some (L "Track_abc123.mp3")) 0 false] [])
           (mkBytesIO [Byte.x49; Byte.x44; Byte.x33] (Some (L "Track_abc123.mp3")) 0 false)
           eq_refl).
Defined.

(** The happy path, end to end: the validator matches, both phases answer,
    the audio is uploaded, the status message is set to the success text,
    and the buffer ends closed. *)
Example happy_path :
  let url := L "https://open.spotify.com/track/4uLU6hMCjMI75M1A2tKUQC" in
  let body := [Byte.x49; Byte.x44; Byte.x33] in
  handle_message None (service_ok body) chat_ok (mkUpdate (Some url) 1) empty_world =
  (mkWorld [mkBytesIO body (Some (L "Track_4uLU6hMCjMI75M1A2tKUQC.mp3")) 0 true]
     [ReplyText MSG_STATUS;
      Log INFO (LogAttempt url);
      HttpPost DOWNLOAD_API_ENDPOINT None DOWNLOAD_API_HOST url 30;
      Log INFO LogStep1Success;
      HttpGet (JStr (L "https://cdn.example/file")) (JStr (L "token")) 60;
      Log INFO (LogFileSize (file_size_mb_of body));
      Log INFO (LogDownloaded (L "Track_4uLU6hMCjMI75M1A2tKUQC.mp3"));
      ReplyAudio 0 (L "Track_4uLU6hMCjMI75M1A2tKUQC.mp3") 120;
      EditMessageText 1 7 MSG_SUCCESS],
   Ok tt).
Proof. vm_compute. reflexivity. Qed.

(** An update without a message: the handler raises at once. *)
Example update_without_message :
  handle_message None (service_ok []) chat_ok WithoutMessage empty_world =
  (empty_world, Raise AttributeError).
Proof. reflexivity. Qed.

(** A Phase-2 error answer whose body breaks off: the exception of the
    download leaves the client and the handler; the status message is left
    as it was sent. *)
Example unread_error_body_end_to_end :
  let url := L "https://open.spotify.com/track/4uLU6hMCjMI75M1A2tKUQC" in
  handle_message None service_broken chat_ok (mkUpdate (Some url) 1) empty_world =
  (mkWorld []
     [ReplyText MSG_STATUS;
      Log INFO (LogAttempt url);
      HttpPost DOWNLOAD_API_ENDPOINT None DOWNLOAD_API_HOST url 30;
      Log INFO LogStep1Success;
      HttpGet (JStr (L "https://cdn.example/file")) (JStr (L "token")) 60;
      Log ERROR (LogCallError (HTTPErrorUnread 502 ConnectionError));
      Log ERROR (LogResponseCode 502)],
   Raise ConnectionError).
Proof. vm_compute. reflexivity. Qed.

Example validator_full :
  link_validator (L "https://open.spotify.com/track/abc123?si=xyz789")
  = Some (L "https://open.spotify.com/track/abc123?si=xyz789").
Proof. reflexivity. Qed.

Example validator_no_scheme :
  link_validator (L "check this out open.spotify.com/track/abc123?si=xyz and more text") = None.
Proof. reflexivity. Qed.

Example validator_inside :
  link_validator (L "see http://open.spotify.com/album/9Zz&nd=1&nd=1 https://open.spotify.com/track/a")
  = Some (L "http://open.spotify.com/album/9Zz&nd=1").
Proof. reflexivity. Qed.

(** * Further properties of the Link Validator *)

Lemma search_from_hit r pos s m :
  Re.match_at r s = Some m -> Re.search_from r pos s = Some (Re.Match pos m).
Proof. intros H. destruct s; cbn [Re.search_from]; rewrite H; reflexivity. Qed.

(** A text that is in the language of the pattern is matched whole. *)
Lemma search_whole m :
  Re.matches SPOTIFY_URL_PATTERN m ->
  Re.search SPOTIFY_URL_PATTERN m = Some (Re.Match 0 m).
Proof.
  intros Hm. unfold Re.search. apply search_from_hit. unfold Re.match_at.
  pose proof (run_complete _ _ Hm []) as Hin. rewrite app_nil_r in Hin.
  pose proof (pattern_head_min m) as Hmin.
  destruct (Re.run SPOTIFY_URL_PATTERN m) as [|h tl]; [contradiction|].
  cbn [head_min] in Hmin.
  assert (h = []) as ->.
  { destruct Hin as [Hin|Hin]; [exact Hin|].
    rewrite Forall_forall in Hmin. specialize (Hmin _ Hin). simpl in Hmin. lia. }
  cbn [length]. rewrite Nat.sub_0_r, firstn_all. reflexivity.
Qed.

(** X1. A text that is itself a URL of the grammar is returned whole by the
    Link Validator: nothing of it is cut off. *)
Theorem grammar_url_accepted_whole m :
  url_grammar m -> link_validator m = Some m.
Proof.
  intros Hg. apply pattern_grammar in Hg.
  unfold link_validator. rewrite (search_whole m Hg). reflexivity.
Qed.

Lemma grammar_url_accepted_whole_witness :
  link_validator (L "http://open.spotify.com/playlist/37i9dQZF1DX?si=abc&nd=1")
  = Some (L "http://open.spotify.com/playlist/37i9dQZF1DX?si=abc&nd=1").
Proof.
  apply (grammar_url_accepted_whole
           (L "http://open.spotify.com/playlist/37i9dQZF1DX?si=abc&nd=1")).
  exists (L "http"), (L "playlist"), (L "37i9dQZF1DX"), (L "?si=abc"), (L "&nd=1").
  split; [reflexivity|]. split; [left; reflexivity|].
  split; [right; right; reflexivity|].
  split; [split; [discriminate|reflexivity]|].
  split; [right; exists (L "abc"); split; [split; [discriminate|reflexivity]|reflexivity]|].
  right. reflexivity.
Defined.

(** X2. The Link Validator is idempotent: the URL it extracts from a text is
    returned unchanged when it is validated again. *)
Theorem link_validator_idempotent text m :
  link_validator text = Some m -> link_validator m = Some m.
Proof.
  unfold link_validator at 1. unfold Re.search. intros H.
  pose proof (search_from_spec SPOTIFY_URL_PATTERN text 0) as S.
  destruct (Re.search_from SPOTIFY_URL_PATTERN 0 text) as [mo|]; [|discriminate].
  cbn [option_map] in H. injection H as <-.
  destruct S as (_ & _ & _ & _ & _ & _ & Hm & _).
  unfold link_validator. rewrite (search_whole _ Hm). reflexivity.
Qed.

Lemma link_validator_idempotent_witness :
  link_validator (L "https://open.spotify.com/track/abc123?si=xyz789")
  = Some (L "https://open.spotify.com/track/abc123?si=xyz789").
Proof.
  exact (link_validator_idempotent
           (L "listen: https://open.spotify.com/track/abc123?si=xyz789 (great)")
           (L "https://open.spotify.com/track/abc123?si=xyz789") eq_refl).
Defined.

(** * Further properties of the filename derivation *)

Section SplitMore.

Variable sep : ascii.

Lemma split_clean s : ~ In sep s -> split sep s = [s].
Proof.
  induction s as [|c t IH]; intros H; simpl; [reflexivity|].
  destruct (Ascii.eqb_spec c sep) as [->|Hc]; [exfalso; apply H; left; reflexivity|].
  rewrite IH; [reflexivity|]. intros Hin. apply H. right. exact Hin.
Qed.

Lemma split_first a b : ~ In sep a -> split sep (a ++ sep :: b) = a :: split sep b.
Proof.
  induction a as [|c a IH]; intros H; simpl.
  - rewrite Ascii.eqb_refl. reflexivity.
  - destruct (Ascii.eqb_spec c sep) as [->|Hc]; [exfalso; apply H; left; reflexivity|].
    rewrite IH; [reflexivity|]. intros Hin. apply H. right. exact Hin.
Qed.

Lemma split_app_sep p s : exists h r, split sep (p ++ sep :: s) = (h :: r) ++ split sep s.
Proof.
  induction p as [|c p (h & r & IH)]; simpl.
  - rewrite Ascii.eqb_refl. exists [], []. reflexivity.
  - destruct (Ascii.eqb c sep).
    + exists [], (h :: r). rewrite IH. reflexivity.
    + rewrite IH. exists (c :: h), r. reflexivity.
Qed.

(** [s.split(sep)[-1]] only looks at what follows the last separator. *)
Lemma item_last_after_sep p s :
  item_last (split sep (p ++ sep :: s)) = item_last (split sep s).
Proof.
  destruct (split_app_sep p s) as (h & r & ->).
  pose proof (split_nonempty sep s) as Hne.
  unfold item_last. rewrite rev_app_distr.
  destruct (rev (split sep s)) as [|x l] eqn:E; [|reflexivity].
  apply (f_equal (@rev pystr)) in E. rewrite rev_involutive in E. simpl in E. congruence.
Qed.

End SplitMore.

Lemma identifier_lacks c w : is_alnum c = false -> identifier w -> ~ In c w.
Proof.
  intros Hc [_ Hw] Hin. rewrite forallb_forall in Hw.
  specialize (Hw _ Hin). congruence.
Qed.

Lemma not_in_app (c : ascii) a b : ~ In c a -> ~ In c b -> ~ In c (a ++ b).
Proof. intros Ha Hb Hin. apply in_app_or in Hin. tauto. Qed.

Lemma not_in_literal (c : ascii) (l : pystr) :
  existsb (Ascii.eqb c) l = false -> ~ In c l.
Proof.
  intros H Hin. assert (E : existsb (Ascii.eqb c) l = true); [|congruence].
  apply existsb_exists. exists c. split; [exact Hin|apply Ascii.eqb_refl].
Qed.

(** X4. The suggested name of a link: for every text that ends in
    [/<id>], followed by an optional share parameter [?si=...] and an optional
    [&nd=1], as every validated URL does, the name is [Track_<id>] when the
    share parameter is there, and [Track_<id>] followed by what follows the
    identifier ([&nd=1] or nothing) when it is not. *)
Theorem track_name_of_link pre id si nd :
  identifier id ->
  si = [] \/ (exists v, identifier v /\ si = L "?si=" ++ v) ->
  nd = [] \/ nd = L "&nd=1" ->
  track_name_of (pre ++ L "/" ++ id ++ si ++ nd) =
  L "Track_" ++ id ++ match si with [] => nd | _ => [] end.
Proof.
  intros Hid Hsi Hnd.
  assert (Hnd_s : ~ In "/"%char nd /\ ~ In "?"%char nd).
  { destruct Hnd as [->| ->]; split; apply not_in_literal; reflexivity. }
  assert (Hid_s : ~ In "/"%char id) by (apply identifier_lacks; [reflexivity|exact Hid]).
  assert (Hid_q : ~ In "?"%char id) by (apply identifier_lacks; [reflexivity|exact Hid]).
  assert (Hsi_s : ~ In "/"%char si).
  { destruct Hsi as [->|(v & Hv & ->)]; [intros []|].
    apply not_in_app; [apply not_in_literal; reflexivity|].
    apply identifier_lacks; [reflexivity|exact Hv]. }
  unfold track_name_of, track_id_of.
  change (pre ++ L "/" ++ id ++ si ++ nd) with (pre ++ "/"%char :: (id ++ si ++ nd)).
  rewrite item_last_after_sep.
  rewrite split_clean
    by (apply not_in_app; [exact Hid_s|apply not_in_app; [exact Hsi_s|apply Hnd_s]]).
  cbn [item_last rev app].
  destruct Hsi as [->|(v & Hv & ->)].
  - cbn [app]. rewrite split_clean by (apply not_in_app; [exact Hid_q|apply Hnd_s]).
    reflexivity.
  - change (id ++ (L "?si=" ++ v) ++ nd) with (id ++ "?"%char :: (L "si=" ++ v ++ nd)).
    rewrite split_first by exact Hid_q.
    cbn [item_first]. rewrite app_nil_r. reflexivity.
Qed.

Lemma track_name_of_link_witness :
  track_name_of (L "https://open.spotify.com/track" ++ L "/" ++ L "abc123" ++ [] ++ L "&nd=1") =
  L "Track_" ++ L "abc123" ++ L "&nd=1".
Proof.
  apply (track_name_of_link (L "https://open.spotify.com/track") (L "abc123") [] (L "&nd=1")).
  - split; [discriminate|reflexivity].
  - left. reflexivity.
  - right. reflexivity.
Defined.

(** * Further properties of the Conversion Client *)

(** The requests the client issues, and when: one POST, then at most one
    GET, which is issued only on a Phase-1 answer that passed every test;
    the client never calls the chat platform. *)
Lemma client_trace key net url w :
  exists t,
    trace (fst (call_download_api key net url w)) = trace w ++ t /\
    existsb is_chat t = false /\
    (requests_of t = [HttpPost DOWNLOAD_API_ENDPOINT key DOWNLOAD_API_HOST url 30] \/
     exists r1 fields,
       net_post net DOWNLOAD_API_ENDPOINT url = Ok r1 /\
       ((400 <=? status_code r1) && (status_code r1 <? 600))%Z = false /\
       json_body r1 = Ok (JObj fields) /\
       is_True (dict_get fields (L "error") JNull) = false /\
       truthy (dict_get fields (L "url") JNull) = true /\
       truthy (dict_get fields (L "payload") JNull) = true /\
       requests_of t =
         [HttpPost DOWNLOAD_API_ENDPOINT key DOWNLOAD_API_HOST url 30;
          HttpGet (dict_get fields (L "url") JNull) (dict_get fields (L "payload") JNull) 60]).
Proof.
  exec_m;
    (eexists; split; [rewrite <- ?app_assoc; reflexivity|]; split; [reflexivity|]);
    first [ left; reflexivity
          | right; do 2 eexists; split; [reflexivity|];
            repeat match goal with H : negb _ = false |- _ => apply negb_false_iff in H end;
            repeat (split; [eassumption|]); reflexivity ].
Qed.

(** X5. A Phase-1 answer with a 4xx or 5xx status is refused whatever its
    body says: the body is not parsed, no Phase-2 fetch is issued, the status
    and the body are logged, and the client returns absence. *)
Theorem phase1_error_status_refused key net url w r1 :
  net_post net DOWNLOAD_API_ENDPOINT url = Ok r1 ->
  (400 <= status_code r1 < 600)%Z ->
  call_download_api key net url w =
    (mkWorld (heap w)
       (trace w ++
        [Log INFO (LogAttempt url);
         HttpPost DOWNLOAD_API_ENDPOINT key DOWNLOAD_API_HOST url 30;
         Log ERROR (LogCallError (HTTPError (status_code r1) (content r1)));
         Log ERROR (LogResponseCode (status_code r1));
         Log ERROR (LogResponseBody (content r1))]),
     Ok (None, None)).
Proof.
  intros Hpost [Hlo Hhi].
  assert (Hst : ((400 <=? status_code r1) && (status_code r1 <? 600))%Z = true).
  { apply andb_true_iff. split; [apply Z.leb_le|apply Z.ltb_lt]; assumption. }
  unfold_m. simpl_m. rewrite Hpost. simpl_m. rewrite Hst. simpl_m.
  rewrite <- !app_assoc. reflexivity.
Qed.

Lemma phase1_error_status_refused_witness :
  let url := L "https://open.spotify.com/track/abc123" in
  let body := [Byte.x7b; Byte.x7d] in
  let net := mkNetwork
               (fun _ _ =>
                  Ok (mkResponse 429 body
                        (Ok (JObj [(L "url", JStr (L "https://cdn.example/file"));
                                   (L "payload", JStr (L "token"))]))))
               (fun _ _ => Ok (mkResponse 200 [Byte.x49] (Raise JSONDecodeError))) in
  call_download_api None net url empty_world =
    (mkWorld (heap empty_world)
       (trace empty_world ++
        [Log INFO (LogAttempt url);
         HttpPost DOWNLOAD_API_ENDPOINT None DOWNLOAD_API_HOST url 30;
         Log ERROR (LogCallError (HTTPError 429 body));
         Log ERROR (LogResponseCode 429);
         Log ERROR (LogResponseBody body)]),
     Ok (None, None)).
Proof.
  intros url body net.
  apply (phase1_error_status_refused None net url empty_world
           (mkResponse 429 body
              (Ok (JObj [(L "url", JStr (L "https://cdn.example/file"));
                         (L "payload", JStr (L "token"))])))).
  - reflexivity.
  - cbn [status_code]. lia.
Defined.

(** X6. A Phase-1 answer whose body is not a JSON object (it is no JSON at
    all, or a list, a string, a number, [null]) makes the client return
    absence without a Phase-2 fetch: the failure of [json()] or of [.get] is
    caught, not raised. *)
Theorem phase1_body_not_an_object key net url w r1 :
  net_post net DOWNLOAD_API_ENDPOINT url = Ok r1 ->
  (forall fields, json_body r1 <> Ok (JObj fields)) ->
  exists t,
    call_download_api key net url w = (mkWorld (heap w) (trace w ++ t), Ok (None, None)) /\
    existsb is_fetch t = false /\
    length (failures t) = 1.
Proof.
  intros Hpost Hno.
  unfold_m. simpl_m. rewrite Hpost. simpl_m.
  destruct ((400 <=? status_code r1)%Z && (status_code r1 <? 600)%Z); simpl_m;
    [finish_trace|].
  destruct (json_body r1) as [j|e] eqn:Hj; simpl_m.
  - destruct j; simpl_m; try finish_trace.
    exfalso. exact (Hno _ eq_refl).
  - destruct e; simpl_m; finish_trace.
Qed.

Lemma phase1_body_not_an_object_witness :
  let net := mkNetwork
               (fun _ _ => Ok (mkResponse 200 [] (Ok (JArr [JStr (L "https://cdn.example/file")]))))
               (fun _ _ => Ok (mkResponse 200 [Byte.x49] (Raise JSONDecodeError))) in
  exists t,
    call_download_api None net (L "https://open.spotify.com/track/abc123") empty_world =
      (mkWorld (heap empty_world) (trace empty_world ++ t), Ok (None, None)) /\
    existsb is_fetch t = false /\
    length (failures t) = 1.
Proof.
  intros net.
  apply (phase1_body_not_an_object None net (L "https://open.spotify.com/track/abc123")
           empty_world (mkResponse 200 [] (Ok (JArr [JStr (L "https://cdn.example/file")])))).
  - reflexivity.
  - intros fields. discriminate.
Defined.

(** X7. The Phase-2 fetch is issued only after a Phase-1 answer that passed
    every test (no error status, a JSON object, no error flag) and it goes,
    with the timeout of 60, to the location and with the token of that answer,
    both of them non-empty. *)
Theorem fetch_uses_phase1_answer key net url w :
  exists t,
    trace (fst (call_download_api key net url w)) = trace w ++ t /\
    forall u p timeout,
      In (HttpGet u p timeout) t ->
      exists r1 fields,
        net_post net DOWNLOAD_API_ENDPOINT url = Ok r1 /\
        ((400 <=? status_code r1) && (status_code r1 <? 600))%Z = false /\
        json_body r1 = Ok (JObj fields) /\
        is_True (dict_get fields (L "error") JNull) = false /\
        u = dict_get fields (L "url") JNull /\ truthy u = true /\
        p = dict_get fields (L "payload") JNull /\ truthy p = true /\
        timeout = 60%Z.
Proof.
  destruct (client_trace key net url w) as (t & Ht & _ & Hreq).
  exists t. split; [exact Ht|].
  intros u p timeout Hin.
  assert (Hin' : In (HttpGet u p timeout) (requests_of t)).
  { apply filter_In. split; [exact Hin|reflexivity]. }
  destruct Hreq as [E|(r1 & fields & H1 & H2 & H3 & H4 & H5 & H6 & E)]; rewrite E in Hin'.
  - destruct Hin' as [H|[]]. discriminate.
  - destruct Hin' as [H|[H|[]]]; [discriminate|].
    injection H as <- <- <-. exists r1, fields. repeat split; assumption.
Qed.

(** X8. The client never retries: in every run it issues exactly one POST,
    first, to the conversion endpoint, with the configured key, the source
    URL and the timeout of 30, and after it at most one GET, with the timeout
    of 60. *)
Theorem client_never_retries key net url w :
  exists t rest,
    trace (fst (call_download_api key net url w)) = trace w ++ t /\
    requests_of t = HttpPost DOWNLOAD_API_ENDPOINT key DOWNLOAD_API_HOST url 30 :: rest /\
    (rest = [] \/ exists u p, rest = [HttpGet u p 60]).
Proof.
  destruct (client_trace key net url w) as (t & Ht & _ & Hreq).
  exists t.
  destruct Hreq as [E|(r1 & fields & _ & _ & _ & _ & _ & _ & E)]; rewrite E.
  - exists []. repeat split; auto.
  - eexists. split; [exact Ht|]. split; [reflexivity|]. right. eauto.
Qed.

(** X9. A failure of Phase 2, after a Phase 1 that succeeded, gives absence
    and leaves no buffer behind on each path on which the [except] clause
    can read what it logs.  An exception of the request is caught (a timeout
    is recorded as a [TransportFailure], by the same log line as a Phase-1
    timeout).  A 4xx or 5xx status whose body downloads is recorded as a
    [RemoteRejection], and that body is logged, whatever it holds.  A body
    whose download fails after a success status is caught as well, at the
    read of [content] inside the [try] block.  (The path that is left, an
    error status with a body whose download fails, is the one on which the
    client raises.) *)
Theorem phase2_failure_gives_absence key net url w r1 fields :
  net_post net DOWNLOAD_API_ENDPOINT url = Ok r1 ->
  ((400 <=? status_code r1) && (status_code r1 <? 600))%Z = false ->
  json_body r1 = Ok (JObj fields) ->
  is_True (dict_get fields (L "error") JNull) = false ->
  truthy (dict_get fields (L "url") JNull) = true ->
  truthy (dict_get fields (L "payload") JNull) = true ->
  let fetch := net_get net (dict_get fields (L "url") JNull)
                 (dict_get fields (L "payload") JNull) in
  let head := [Log INFO (LogAttempt url);
               HttpPost DOWNLOAD_API_ENDPOINT key DOWNLOAD_API_HOST url 30;
               Log INFO LogStep1Success;
               HttpGet (dict_get fields (L "url") JNull)
                 (dict_get fields (L "payload") JNull) 60] in
  (forall e, fetch = Raise e -> text_readable e = true ->
     exists t,
       call_download_api key net url w = (mkWorld (heap w) (trace w ++ t), Ok (None, None)) /\
       length (failures t) = 1 /\
       (e = Timeout -> In (Log ERROR LogTimedOut) t /\ failures t = [TransportFailure])) /\
  (forall s body, fetch = Ok s -> (400 <= stream_status s < 600)%Z ->
     stream_body s = Ok body ->
     call_download_api key net url w =
       (mkWorld (heap w)
          (trace w ++ head ++
           [Log ERROR (LogCallError (HTTPError (stream_status s) body));
            Log ERROR (LogResponseCode (stream_status s));
            Log ERROR (LogResponseBody body)]),
        Ok (None, None)) /\
     failures (head ++
               [Log ERROR (LogCallError (HTTPError (stream_status s) body));
                Log ERROR (LogResponseCode (stream_status s));
                Log ERROR (LogResponseBody body)]) = [RemoteRejection]) /\
  (forall s e, fetch = Ok s ->
     ((400 <=? stream_status s) && (stream_status s <? 600))%Z = false ->
     stream_body s = Raise e -> text_readable e = true ->
     exists t,
       call_download_api key net url w = (mkWorld (heap w) (trace w ++ t), Ok (None, None)) /\
       length (failures t) = 1).
Proof.
  intros Hpost Hst1 Hjson Herr Hurl Hpay fetch head. subst fetch head.
  assert (Hhandled : forall e t0,
             text_readable e = true ->
             exists t,
               call_download_api_handler e (mkWorld (heap w) (trace w ++ t0)) =
                 (mkWorld (heap w) (trace w ++ t0 ++ t), Ok (None, None)) /\
               length (failures t) = 1 /\
               (e = Timeout -> t = [Log ERROR LogTimedOut])).
  { intros e t0 Hr.
    destruct e; try discriminate Hr; unfold_m; simpl_m;
      (eexists; split; [rewrite <- ?app_assoc; reflexivity|]; split; [reflexivity|]);
      intros He; try discriminate He; reflexivity. }
  split; [|split].
  - intros e Hget Hr.
    destruct (Hhandled e
                [Log INFO (LogAttempt url);
                 HttpPost DOWNLOAD_API_ENDPOINT key DOWNLOAD_API_HOST url 30;
                 Log INFO LogStep1Success;
                 HttpGet (dict_get fields (L "url") JNull)
                   (dict_get fields (L "payload") JNull) 60] Hr) as (t & Ht & Hlen & HT).
    eexists. split; [|split].
    + unfold call_download_api, call_download_api_body, requests_post, requests_get,
        raise_for_status, json_of, py_get, log.
      unfold emit, lift, try_except, bind, ret, raise. simpl_m.
      rewrite Hpost. simpl_m. rewrite Hst1. simpl_m. rewrite Hjson. simpl_m.
      rewrite Herr. simpl_m. rewrite Hurl. simpl_m. rewrite Hpay. simpl_m.
      rewrite Hget. simpl_m. rewrite <- !app_assoc. cbn [app]. cbn [app] in Ht.
      rewrite Ht. reflexivity.
    + cbn [app failures failure_of_log]. exact Hlen.
    + intros ->. rewrite (HT eq_refl). split; [simpl; tauto|reflexivity].
  - intros s body Hget [Hlo Hhi] Hbody.
    assert (Hst2 : ((400 <=? stream_status s) && (stream_status s <? 600))%Z = true).
    { apply andb_true_iff. split; [apply Z.leb_le|apply Z.ltb_lt]; assumption. }
    split; [|reflexivity].
    unfold_m. simpl_m.
    rewrite Hpost. simpl_m. rewrite Hst1. simpl_m. rewrite Hjson. simpl_m.
    rewrite Herr. simpl_m. rewrite Hurl. simpl_m. rewrite Hpay. simpl_m.
    rewrite Hget. simpl_m. rewrite Hst2. simpl_m. rewrite Hbody. simpl_m.
    rewrite <- !app_assoc. reflexivity.
  - intros s e Hget Hst2 Hbody Hr.
    destruct (Hhandled e
                [Log INFO (LogAttempt url);
                 HttpPost DOWNLOAD_API_ENDPOINT key DOWNLOAD_API_HOST url 30;
                 Log INFO LogStep1Success;
                 HttpGet (dict_get fields (L "url") JNull)
                   (dict_get fields (L "payload") JNull) 60] Hr) as (t & Ht & Hlen & _).
    eexists. split.
    + unfold call_download_api, call_download_api_body, requests_post, requests_get,
        raise_for_status, json_of, py_get, log.
      unfold emit, lift, try_except, bind, ret, raise. simpl_m.
      rewrite Hpost. simpl_m. rewrite Hst1. simpl_m. rewrite Hjson. simpl_m.
      rewrite Herr. simpl_m. rewrite Hurl. simpl_m. rewrite Hpay. simpl_m.
      rewrite Hget. simpl_m. rewrite Hst2. simpl_m. rewrite Hbody. simpl_m.
      rewrite <- !app_assoc. cbn [app]. cbn [app] in Ht.
      rewrite Ht. reflexivity.
    + cbn [app failures failure_of_log]. exact Hlen.
Qed.

Lemma phase2_failure_gives_absence_witness :
  let url := L "https://open.spotify.com/track/abc123" in
  let fields := [(L "url", JStr (L "https://cdn.example/file"));
                 (L "payload", JStr (L "token"))] in
  let body := [Byte.x6f; Byte.x6f; Byte.x70; Byte.x73] in
  let net := mkNetwork (fun _ _ => Ok (mkResponse 200 [] (Ok (JObj fields))))
                       (fun _ _ => Ok (mkStream 503 (Ok body))) in
  call_download_api None net url empty_world =
    (mkWorld (heap empty_world)
       (trace empty_world ++
        [Log INFO (LogAttempt url);
         HttpPost DOWNLOAD_API_ENDPOINT None DOWNLOAD_API_HOST url 30;
         Log INFO LogStep1Success;
         HttpGet (dict_get fields (L "url") JNull) (dict_get fields (L "payload") JNull) 60] ++
        [Log ERROR (LogCallError (HTTPError 503 body));
         Log ERROR (LogResponseCode 503);
         Log ERROR (LogResponseBody body)]),
     Ok (None, None)).
Proof.
  intros url fields body net.
  refine (proj1 (proj1 (proj2 (phase2_failure_gives_absence None net url empty_world
                                 (mkResponse 200 [] (Ok (JObj fields))) fields
                                 eq_refl eq_refl eq_refl eq_refl eq_refl eq_refl))
                   (mkStream 503 (Ok body)) body eq_refl _ eq_refl)).
  cbn [stream_status]. lia.
Defined.

(** X10. A payload the client returns is the Phase-2 answer and nothing
    else: the buffer is a new one (the buffers that existed are untouched),
    it holds exactly the bytes fetched from the location and with the token
    of the Phase-1 answer, it is rewound to the start, still open, and its
    file name is the suggested name with [.mp3]. *)
Theorem payload_is_the_fetched_body key net url w audio name :
  snd (call_download_api key net url w) = Ok (Some audio, name) ->
  exists r1 fields (r2 : response),
    net_post net DOWNLOAD_API_ENDPOINT url = Ok r1 /\
    json_body r1 = Ok (JObj fields) /\
    net_get net (dict_get fields (L "url") JNull) (dict_get fields (L "payload") JNull) = Ok r2 /\
    audio = length (heap w) /\
    name = Some (track_name_of url) /\
    heap (fst (call_download_api key net url w)) =
      heap w ++ [mkBytesIO (content r2) (Some (track_name_of url ++ L ".mp3")) 0 false].
Proof.
  exec_m; intros H; try discriminate.
  injection H as <- <-.
  match goal with
  | Hb : stream_body ?s = Ok ?l, Hg : net_get _ _ _ = Ok ?s |- _ =>
      rewrite (stream_whole s l Hb) in Hg;
      do 2 eexists; exists (mkResponse (stream_status s) l (Raise JSONDecodeError))
  end.
  repeat (split; [first [reflexivity|eassumption]|]). reflexivity.
Qed.

Lemma payload_is_the_fetched_body_witness :
  let url := L "https://open.spotify.com/track/abc123" in
  let net := service_ok [Byte.x49; Byte.x44; Byte.x33] in
  exists r1 fields (r2 : response),
    net_post net DOWNLOAD_API_ENDPOINT url = Ok r1 /\
    json_body r1 = Ok (JObj fields) /\
    net_get net (dict_get fields (L "url") JNull) (dict_get fields (L "payload") JNull) = Ok r2 /\
    0 = length (heap empty_world) /\
    Some (L "Track_abc123") = Some (track_name_of url) /\
    heap (fst (call_download_api None net url empty_world)) =
      heap empty_world ++ [mkBytesIO (content r2) (Some (track_name_of url ++ L ".mp3")) 0 false].
Proof.
  exact (payload_is_the_fetched_body None (service_ok [Byte.x49; Byte.x44; Byte.x33])
           (L "https://open.spotify.com/track/abc123") empty_world 0
           (Some (L "Track_abc123")) eq_refl).
Defined.

(** * Further properties of the handlers *)

(** [process_spotify_link], path by path: the status reply fails; or the
    client yields nothing and the status message is edited to the failure
    text; or the client yields a new buffer and the delivery step runs; or
    the client raises, and so does [process_spotify_link], at once. *)
Lemma process_cases key net tg u url w :
  (exists e,
      tg_reply_text tg MSG_STATUS = Raise e /\
      process_spotify_link key net tg u url w = (after_status w, Raise e)) \/
  (exists sid w2,
      tg_reply_text tg MSG_STATUS = Ok sid /\
      call_download_api key net url (after_status w) = (w2, Ok (None, None)) /\
      heap w2 = heap w /\
      process_spotify_link key net tg u url w =
        (mkWorld (heap w2)
           (trace w2 ++ [EditMessageText (message_chat_id u) sid MSG_DOWNLOAD_FAILED]),
         tg_edit_message_text tg (message_chat_id u) sid MSG_DOWNLOAD_FAILED)) \/
  (exists sid w2 r2,
      tg_reply_text tg MSG_STATUS = Ok sid /\
      call_download_api key net url (after_status w) =
        (w2, Ok (Some (length (heap w)), Some (track_name_of url))) /\
      heap w2 = heap w ++ [fresh_buffer url r2] /\
      process_spotify_link key net tg u url w =
        deliver tg u sid (length (heap w)) (Some (track_name_of url)) w2) \/
  (exists sid w2 e,
      tg_reply_text tg MSG_STATUS = Ok sid /\
      call_download_api key net url (after_status w) = (w2, Raise e) /\
      heap w2 = heap w /\
      process_spotify_link key net tg u url w = (w2, Raise e)).
Proof.
  unfold process_spotify_link, reply_text, emit, lift, bind. simpl_m.
  fold (after_status w).
  destruct (tg_reply_text tg MSG_STATUS) as [sid|e]; simpl_m.
  2:{ left. exists e. split; reflexivity. }
  right.
  pose proof (call_download_api_cases key net url (after_status w)) as C.
  destruct (call_download_api key net url (after_status w)) as [w2 r] eqn:E.
  cbn [fst snd heap after_status] in C.
  destruct C as [[-> Hh]|[(r2 & -> & Hh & _)|(e & -> & Hh)]]; cbn [fst snd].
  - left. exists sid, w2.
    split; [reflexivity|]. split; [reflexivity|]. split; [exact Hh|].
    unfold edit_message_text, emit, lift, bind. reflexivity.
  - right. left. exists sid, w2, r2.
    split; [reflexivity|]. split; [reflexivity|]. split; [exact Hh|reflexivity].
  - right. right. exists sid, w2, e.
    split; [reflexivity|]. split; [reflexivity|]. split; [exact Hh|reflexivity].
Qed.

Lemma requests_of_app a b : requests_of (a ++ b) = requests_of a ++ requests_of b.
Proof. apply filter_app. Qed.

(** What the delivery step leaves: chat events and log lines only, the
    buffer closed, and no exception but that of the failure reply. *)
Lemma deliver_facts tg u sid audio track_name w b :
  nth_error (heap w) audio = Some b ->
  exists td,
    trace (fst (deliver tg u sid audio track_name w)) = trace w ++ td /\
    requests_of td = [] /\
    heap (fst (deliver tg u sid audio track_name w)) =
      heap_set (heap w) audio (mkBytesIO (getvalue b) (name b) (tell b) true) /\
    (forall e, snd (deliver tg u sid audio track_name w) = Raise e ->
               tg_reply_text tg MSG_UPLOAD_FAILED = Raise e).
Proof.
  intros Hb. rewrite (deliver_runs tg u sid audio track_name w b Hb).
  assert (Hafter : forall e,
             match tg_reply_text tg MSG_UPLOAD_FAILED with
             | Ok _ => Ok tt
             | Raise e' => Raise e'
             end = Raise e -> tg_reply_text tg MSG_UPLOAD_FAILED = Raise e).
  { intros e. destruct (tg_reply_text tg MSG_UPLOAD_FAILED); intros H;
      [discriminate|injection H as ->; reflexivity]. }
  destruct (tg_reply_audio tg (getvalue b) (mp3_name track_name)) as [[]|e];
    [destruct (tg_edit_message_text tg (message_chat_id u) sid MSG_SUCCESS) as [[]|e]|];
    cbn [fst snd trace heap]; eexists; (split; [reflexivity|]);
    (split; [reflexivity|]); (split; [reflexivity|]); try exact Hafter.
  intros e H. discriminate.
Qed.

(** What [process_spotify_link] leaves, whatever the collaborators answer. *)
Lemma process_facts key net tg u url w :
  let res := process_spotify_link key net tg u url w in
  exists t new,
    trace (fst res) = trace w ++ t /\
    heap (fst res) = heap w ++ new /\
    Forall (fun b => closed b = true) new /\
    (requests_of t = [] \/
     exists sid rest,
       tg_reply_text tg MSG_STATUS = Ok sid /\
       requests_of t = HttpPost DOWNLOAD_API_ENDPOINT key DOWNLOAD_API_HOST url 30 :: rest /\
       (rest = [] \/ exists l p, rest = [HttpGet l p 60])) /\
    (forall e, snd res = Raise e ->
       tg_reply_text tg MSG_STATUS = Raise e \/
       tg_reply_text tg MSG_UPLOAD_FAILED = Raise e \/
       (exists sid,
           tg_edit_message_text tg (message_chat_id u) sid MSG_DOWNLOAD_FAILED = Raise e) \/
       (exists w' st,
           snd (call_download_api_body key net url w') = Raise (HTTPErrorUnread st e))).
Proof.
  cbv zeta.
  assert (Hreq : forall tc td,
             (requests_of tc = [HttpPost DOWNLOAD_API_ENDPOINT key DOWNLOAD_API_HOST url 30] \/
              exists r1 fields,
                net_post net DOWNLOAD_API_ENDPOINT url = Ok r1 /\
                ((400 <=? status_code r1) && (status_code r1 <? 600))%Z = false /\
                json_body r1 = Ok (JObj fields) /\
                is_True (dict_get fields (L "error") JNull) = false /\
                truthy (dict_get fields (L "url") JNull) = true /\
                truthy (dict_get fields (L "payload") JNull) = true /\
                requests_of tc =
                  [HttpPost DOWNLOAD_API_ENDPOINT key DOWNLOAD_API_HOST url 30;
                   HttpGet (dict_get fields (L "url") JNull)
                     (dict_get fields (L "payload") JNull) 60]) ->
             requests_of td = [] ->
             exists rest,
               requests_of ([ReplyText MSG_STATUS] ++ tc ++ td) =
                 HttpPost DOWNLOAD_API_ENDPOINT key DOWNLOAD_API_HOST url 30 :: rest /\
               (rest = [] \/ exists l p, rest = [HttpGet l p 60])).
  { intros tc td Hc Hd. rewrite !requests_of_app, Hd, app_nil_r. cbn [requests_of filter is_request app].
    fold (requests_of tc).
    destruct Hc as [->|(r1 & fields & _ & _ & _ & _ & _ & _ & ->)]; eexists; split;
      try reflexivity; [left; reflexivity|right; eauto]. }
  destruct (process_cases key net tg u url w)
    as [(e & Hs & ->)|[(sid & w2 & Hs & E & Hh & ->)|[(sid & w2 & r2 & Hs & E & Hh & ->)
       |(sid & w2 & e & Hs & E & Hh & ->)]]].
  - exists [ReplyText MSG_STATUS], []. cbn [fst snd after_status trace heap].
    rewrite app_nil_r. repeat split; auto.
    intros e' H. injection H as <-. left. exact Hs.
  - destruct (client_trace key net url (after_status w)) as (tc & Ht & _ & Hc).
    rewrite E in Ht. cbn [fst after_status trace] in Ht.
    destruct (Hreq tc [EditMessageText (message_chat_id u) sid MSG_DOWNLOAD_FAILED] Hc eq_refl)
      as (rest & Hr1 & Hr2).
    exists ([ReplyText MSG_STATUS] ++ tc ++
            [EditMessageText (message_chat_id u) sid MSG_DOWNLOAD_FAILED]), [].
    cbn [fst snd trace heap]. rewrite Ht, Hh, app_nil_r.
    split; [rewrite <- !app_assoc; reflexivity|].
    split; [reflexivity|]. split; [constructor|]. split.
    + right. exists sid, rest. repeat split; assumption.
    + intros e' H. right. right. left. exists sid. exact H.
  - destruct (client_trace key net url (after_status w)) as (tc & Ht & _ & Hc).
    rewrite E in Ht. cbn [fst after_status trace] in Ht.
    assert (Hb : nth_error (heap w2) (length (heap w)) = Some (fresh_buffer url r2)).
    { rewrite Hh. apply nth_error_alloc. }
    destruct (deliver_facts tg u sid _ (Some (track_name_of url)) w2 _ Hb)
      as (td & Hd & Hdr & Hdh & Hde).
    destruct (Hreq tc td Hc Hdr) as (rest & Hr1 & Hr2).
    exists ([ReplyText MSG_STATUS] ++ tc ++ td).
    eexists. rewrite Hd, Hdh, Ht, Hh, heap_set_alloc.
    split; [rewrite <- !app_assoc; reflexivity|].
    split; [reflexivity|]. split; [constructor; [reflexivity|constructor]|]. split.
    + right. exists sid, rest. repeat split; assumption.
    + intros e' H. right. left. apply Hde. exact H.
  - destruct (client_trace key net url (after_status w)) as (tc & Ht & _ & Hc).
    rewrite E in Ht. cbn [fst after_status trace] in Ht.
    destruct (Hreq tc [] Hc eq_refl) as (rest & Hr1 & Hr2).
    rewrite app_nil_r in Hr1.
    exists ([ReplyText MSG_STATUS] ++ tc), [].
    cbn [fst snd trace heap]. rewrite Ht, Hh, app_nil_r.
    split; [rewrite <- !app_assoc; reflexivity|].
    split; [reflexivity|]. split; [constructor|]. split.
    + right. exists sid, rest. repeat split; assumption.
    + intros e' H. injection H as <-. right. right. right.
      destruct (client_raises key net url (after_status w) e) as (st & Hb).
      { rewrite E. reflexivity. }
      eauto.
Qed.

(** What [handle_message] leaves, whatever the update and the
    collaborators. *)
Lemma handle_facts key net tg (update : Update) w :
  let res := handle_message key net tg update w in
  exists t new,
    trace (fst res) = trace w ++ t /\
    heap (fst res) = heap w ++ new /\
    Forall (fun b => closed b = true) new /\
    (requests_of t = [] \/
     exists u text mo pre post sid rest,
       update = WithMessage u /\
       message_text u = Some text /\
       Re.search SPOTIFY_URL_PATTERN text = Some mo /\
       text = pre ++ Re.group0 mo ++ post /\
       Re.matches SPOTIFY_URL_PATTERN (Re.group0 mo) /\
       tg_reply_text tg MSG_STATUS = Ok sid /\
       requests_of t =
         HttpPost DOWNLOAD_API_ENDPOINT key DOWNLOAD_API_HOST (Re.group0 mo) 30 :: rest /\
       (rest = [] \/ exists l p, rest = [HttpGet l p 60])) /\
    (forall e, snd res = Raise e ->
       (update = WithoutMessage /\ e = AttributeError) \/
       exists u,
         update = WithMessage u /\
         (tg_reply_text tg MSG_STATUS = Raise e \/
          tg_reply_text tg MSG_UPLOAD_FAILED = Raise e \/
          tg_reply_text tg MSG_NOT_A_LINK = Raise e \/
          (exists sid,
              tg_edit_message_text tg (message_chat_id u) sid MSG_DOWNLOAD_FAILED = Raise e) \/
          (exists text m w' st,
              message_text u = Some text /\
              link_validator text = Some m /\
              snd (call_download_api_body key net m w') = Raise (HTTPErrorUnread st e)))).
Proof.
  cbv zeta. unfold handle_message.
  destruct update as [u|].
  2:{ exists [], []. unfold raise. cbn [fst snd]. rewrite !app_nil_r.
      repeat split; auto. intros e H. injection H as <-. left. split; reflexivity. }
  destruct (message_text u) as [[|c text']|] eqn:Ht;
    try (exists [], []; unfold ret; cbn [fst snd]; rewrite !app_nil_r;
         repeat split; auto; intros e H; discriminate).
  pose proof (search_from_spec SPOTIFY_URL_PATTERN (c :: text') 0) as S.
  fold (Re.search SPOTIFY_URL_PATTERN (c :: text')) in S.
  destruct (Re.search SPOTIFY_URL_PATTERN (c :: text')) as [mo|] eqn:Es.
  - destruct S as (pre & post & _ & Hs & _ & _ & Hm & _).
    destruct (process_facts key net tg u (Re.group0 mo) w)
      as (t & new & H1 & H2 & H3 & H4 & H5).
    exists t, new. split; [exact H1|]. split; [exact H2|]. split; [exact H3|]. split.
    + destruct H4 as [H4|(sid & rest & Hsid & Hr & Hrest)]; [left; exact H4|].
      right. exists u, (c :: text'), mo, pre, post, sid, rest. repeat split; assumption.
    + intros e He. right. exists u. split; [reflexivity|].
      destruct (H5 e He) as [H|[H|[H|(w' & st & H)]]]; auto.
      right. right. right. right. exists (c :: text'), (Re.group0 mo), w', st.
      split; [exact Ht|]. split; [unfold link_validator; rewrite Es; reflexivity|exact H].
  - unfold reply_text, emit, lift, bind, ret. simpl_m.
    exists [ReplyText MSG_NOT_A_LINK], [].
    destruct (tg_reply_text tg MSG_NOT_A_LINK) as [mid|e0] eqn:Er;
      cbn [fst snd trace heap]; rewrite app_nil_r; repeat split; auto.
    + intros e H. discriminate.
    + intros e H. injection H as <-. right. exists u. auto.
Qed.

(** X3. Only validated links reach the conversion service.  Handling a
    message issues no request at all, or exactly one POST, after the status
    message has been sent, which carries the link the validator extracts
    from the text (a URL of the grammar that occurs in the text), followed by
    at most one GET. *)
Theorem requests_carry_validated_url key net tg (u : update) w :
  exists t,
    trace (fst (handle_message key net tg u w)) = trace w ++ t /\
    (requests_of t = [] \/
     exists text m rest,
       message_text u = Some text /\
       link_validator text = Some m /\
       url_grammar m /\
       (exists pre, infix_at pre m text) /\
       (exists sid, tg_reply_text tg MSG_STATUS = Ok sid) /\
       requests_of t = HttpPost DOWNLOAD_API_ENDPOINT key DOWNLOAD_API_HOST m 30 :: rest /\
       (rest = [] \/ exists l p, rest = [HttpGet l p 60])).
Proof.
  destruct (handle_facts key net tg u w) as (t & new & H1 & _ & _ & H4 & _).
  exists t. split; [exact H1|].
  destruct H4
    as [H4|(u0 & text & mo & pre & post & sid & rest & Hu & Ht & Es & Hs & Hm & Hsid & Hr & Hrest)];
    [left; exact H4|].
  injection Hu as <-.
  right. exists text, (Re.group0 mo), rest.
  split; [exact Ht|].
  split; [unfold link_validator; rewrite Es; reflexivity|].
  split; [apply pattern_grammar; exact Hm|].
  split; [exists pre, post; exact Hs|].
  split; [exists sid; exact Hsid|].
  split; assumption.
Qed.

(** X13. The exceptions that escape the message handler.  On an update
    without a message the handler raises [AttributeError], at the read of
    [update.message.text], before anything else.  On an update with a message
    an exception that escapes is one the chat platform raised on a text reply
    (the status message, the no-link reply, the upload-failure reply) or on
    the edit to the download-failure text, or it is the one raised inside the
    client's [except] clause at the read of [e.response.text]: then the
    [try] block of the client, run on the link the validator extracts from
    the text, has raised an [HTTPError] whose response body could not be
    read.  No other failure of the conversion service, and no failure of the
    upload or of the success edit, gets out of the handler. *)
Theorem handler_exceptions key net tg (update : Update) w e :
  snd (handle_message key net tg update w) = Raise e ->
  (update = WithoutMessage /\ e = AttributeError) \/
  exists u,
    update = WithMessage u /\
    (tg_reply_text tg MSG_STATUS = Raise e \/
     tg_reply_text tg MSG_UPLOAD_FAILED = Raise e \/
     tg_reply_text tg MSG_NOT_A_LINK = Raise e \/
     (exists sid,
         tg_edit_message_text tg (message_chat_id u) sid MSG_DOWNLOAD_FAILED = Raise e) \/
     (exists text m w' st,
         message_text u = Some text /\
         link_validator text = Some m /\
         snd (call_download_api_body key net m w') = Raise (HTTPErrorUnread st e))).
Proof.
  destruct (handle_facts key net tg update w) as (t & new & _ & _ & _ & _ & H5).
  exact (H5 e).
Qed.

Lemma handler_exceptions_witness :
  (WithoutMessage = WithoutMessage /\ AttributeError = AttributeError) \/
  exists u,
    WithoutMessage = WithMessage u /\
    (tg_reply_text chat_ok MSG_STATUS = Raise AttributeError \/
     tg_reply_text chat_ok MSG_UPLOAD_FAILED = Raise AttributeError \/
     tg_reply_text chat_ok MSG_NOT_A_LINK = Raise AttributeError \/
     (exists sid,
         tg_edit_message_text chat_ok (message_chat_id u) sid MSG_DOWNLOAD_FAILED =
         Raise AttributeError) \/
     (exists text m w' st,
         message_text u = Some text /\
         link_validator text = Some m /\
         snd (call_download_api_body None (service_ok []) m w') =
         Raise (HTTPErrorUnread st AttributeError))).
Proof.
  exact (handler_exceptions None (service_ok []) chat_ok WithoutMessage empty_world
           AttributeError eq_refl).
Defined.

(** X14. No buffer is left open, over any sequence of text events: if
    every buffer is closed before, every buffer is closed after the handler
    has run on each update in turn, whatever the updates are and whatever
    the service and the chat platform answer during each of them, also when
    they answer the same request differently from one event to the next, and
    also when a run ends with an exception. *)
Theorem no_open_buffer_after_messages key steps : forall w,
  Forall (fun b => closed b = true) (heap w) ->
  Forall (fun b => closed b = true) (heap (handle_all key steps w)).
Proof.
  induction steps as [|s steps IH]; intros w Hw; cbn [handle_all]; [exact Hw|].
  apply IH.
  destruct (handle_facts key (step_net s) (step_tg s) (step_update s) w)
    as (t & new & _ & H2 & H3 & _).
  rewrite H2. apply Forall_app. split; assumption.
Qed.

Lemma no_open_buffer_after_messages_witness :
  Forall (fun b => closed b = true)
         (heap (handle_all None
                  [mkStep (service_ok [Byte.x49; Byte.x44; Byte.x33]) chat_upload_fails
                     (mkUpdate (Some (L "https://open.spotify.com/track/abc123")) 1);
                   mkStep service_broken chat_ok
                     (mkUpdate (Some (L "https://open.spotify.com/track/abc123")) 1);
                   mkStep service_timeout chat_ok WithoutMessage;
                   mkStep (service_ok [Byte.x49]) chat_ok
                     (mkUpdate (Some (L "see https://open.spotify.com/album/xyz789")) 2)]
                  empty_world)).
Proof.
  apply (no_open_buffer_after_messages None
           [mkStep (service_ok [Byte.x49; Byte.x44; Byte.x33]) chat_upload_fails
              (mkUpdate (Some (L "https://open.spotify.com/track/abc123")) 1);
            mkStep service_broken chat_ok
              (mkUpdate (Some (L "https://open.spotify.com/track/abc123")) 1);
            mkStep service_timeout chat_ok WithoutMessage;
            mkStep (service_ok [Byte.x49]) chat_ok
              (mkUpdate (Some (L "see https://open.spotify.com/album/xyz789")) 2)]
           empty_world).
  constructor.
Defined.

(** X11. Whatever made the client return absence (a timeout, a rejection, a
    body that is too large), the handling layer does the same thing: it edits
    the status message, the one whose id the status reply returned, in the
    chat of the update, to the download-failure text; it uploads nothing, and
    its outcome is the outcome of that edit. *)
Theorem absence_edits_status_message key net tg u url w sid :
  tg_reply_text tg MSG_STATUS = Ok sid ->
  snd (call_download_api key net url (after_status w)) = Ok (None, None) ->
  process_spotify_link key net tg u url w =
    (mkWorld (heap w)
       (trace (fst (call_download_api key net url (after_status w))) ++
        [EditMessageText (message_chat_id u) sid MSG_DOWNLOAD_FAILED]),
     tg_edit_message_text tg (message_chat_id u) sid MSG_DOWNLOAD_FAILED) /\
  exists tc,
    trace (fst (call_download_api key net url (after_status w))) =
      trace w ++ ReplyText MSG_STATUS :: tc /\
    existsb is_chat tc = false.
Proof.
  intros Hs Hc.
  destruct (client_trace key net url (after_status w)) as (tc & Ht & Hchat & _).
  split.
  - destruct (process_cases key net tg u url w)
      as [(e & Hs' & _)|[(sid' & w2 & Hs' & E & Hh & ->)|[(sid' & w2 & r2 & Hs' & E & _)
         |(sid' & w2 & e & Hs' & E & _)]]].
    + congruence.
    + rewrite E. cbn [fst]. rewrite Hh. congruence.
    + rewrite E in Hc. discriminate.
    + rewrite E in Hc. discriminate.
  - exists tc. split; [|exact Hchat].
    rewrite Ht. cbn [after_status trace]. rewrite <- app_assoc. reflexivity.
Qed.

Lemma absence_edits_status_message_witness :
  let u := mkUpdate (Some (L "https://open.spotify.com/track/abc123")) 5 in
  let url := L "https://open.spotify.com/track/abc123" in
  process_spotify_link None service_timeout chat_ok u url empty_world =
    (mkWorld (heap empty_world)
       (trace (fst (call_download_api None service_timeout url (after_status empty_world))) ++
        [EditMessageText (message_chat_id u) 7 MSG_DOWNLOAD_FAILED]),
     tg_edit_message_text chat_ok (message_chat_id u) 7 MSG_DOWNLOAD_FAILED) /\
  exists tc,
    trace (fst (call_download_api None service_timeout url (after_status empty_world))) =
      trace empty_world ++ ReplyText MSG_STATUS :: tc /\
    existsb is_chat tc = false.
Proof.
  exact (absence_edits_status_message None service_timeout chat_ok
           (mkUpdate (Some (L "https://open.spotify.com/track/abc123")) 5)
           (L "https://open.spotify.com/track/abc123") empty_world 7%Z eq_refl eq_refl).
Defined.

(** X12. When the upload succeeds and the edit of the status message to the
    success text fails, the user, who has received the audio, is sent the
    upload-failure reply all the same: the handler of the delivery step does
    not tell the two failures apart. *)
Theorem failed_edit_reported_as_failed_upload tg u sid audio track_name w b e :
  nth_error (heap w) audio = Some b ->
  tg_reply_audio tg (getvalue b) (mp3_name track_name) = Ok tt ->
  tg_edit_message_text tg (message_chat_id u) sid MSG_SUCCESS = Raise e ->
  trace (fst (deliver tg u sid audio track_name w)) =
    trace w ++
    [ReplyAudio audio (mp3_name track_name) 120;
     EditMessageText (message_chat_id u) sid MSG_SUCCESS;
     Log ERROR (LogSendFailed e);
     ReplyText MSG_UPLOAD_FAILED].
Proof.
  intros Hb Hup Hed. rewrite (deliver_runs tg u sid audio track_name w b Hb).
  rewrite Hup, Hed. reflexivity.
Qed.

Lemma failed_edit_reported_as_failed_upload_witness :
  let buf := mkBytesIO [Byte.x49; Byte.x44; Byte.x33] (Some (L "Track_abc123.mp3")) 0 false in
  let w := mkWorld [buf] [] in
  let tg := mkTelegram (fun _ => Ok 7%Z) (fun _ _ => Ok tt)
                       (fun _ _ _ => Raise (TelegramError (L "Message to edit not found"))) in
  let u := mkUpdate (Some (L "x")) 1 in
  trace (fst (deliver tg u 7 0 (Some (L "Track_abc123")) w)) =
    trace w ++
    [ReplyAudio 0 (mp3_name (Some (L "Track_abc123"))) 120;
     EditMessageText (message_chat_id u) 7 MSG_SUCCESS;
     Log ERROR (LogSendFailed (TelegramError (L "Message to edit not found")));
     ReplyText MSG_UPLOAD_FAILED].
Proof.
  intros buf w tg u.
  exact (failed_edit_reported_as_failed_upload tg u 7%Z 0 (Some (L "Track_abc123")) w buf
           (TelegramError (L "Message to edit not found")) eq_refl eq_refl eq_refl).
Defined.


(** * Independence of the requests *)

(** The client reads nothing of the world but the number of buffers, which
    names the next one: from two worlds with as many buffers it logs and
    requests the same, allocates the same and returns the same. *)
Lemma client_frame key net url w w' :
  length (heap w) = length (heap w') ->
  exists t new r,
    call_download_api key net url w = (mkWorld (heap w ++ new) (trace w ++ t), r) /\
    call_download_api key net url w' = (mkWorld (heap w' ++ new) (trace w' ++ t), r).
Proof.
  intros Hlen. exec_m; rewrite ?Hlen;
    first [ eexists; exists []; eexists;
            rewrite (app_nil_r (heap w)), (app_nil_r (heap w'));
            split; rewrite <- ?app_assoc; reflexivity
          | do 3 eexists; split; rewrite <- ?app_assoc; reflexivity ].
Qed.

Lemma process_frame key net tg u url w w' :
  length (heap w) = length (heap w') ->
  exists t new r,
    process_spotify_link key net tg u url w = (mkWorld (heap w ++ new) (trace w ++ t), r) /\
    process_spotify_link key net tg u url w' = (mkWorld (heap w' ++ new) (trace w' ++ t), r).
Proof.
  intros Hlen.
  destruct (client_frame key net url (after_status w) (after_status w') Hlen)
    as (tc & new & r & E & E').
  cbn [after_status heap trace] in E, E'.
  destruct (process_cases key net tg u url w)
    as [(e & Hs & ->)|[(sid & w2 & Hs & C & Hh & ->)|[(sid & w2 & r2 & Hs & C & Hh & ->)
       |(sid & w2 & e & Hs & C & Hh & ->)]]];
  destruct (process_cases key net tg u url w')
    as [(e' & Hs' & ->)|[(sid' & w2' & Hs' & C' & Hh' & ->)|[(sid' & w2' & r2' & Hs' & C' & Hh' & ->)
       |(sid' & w2' & e' & Hs' & C' & Hh' & ->)]]];
  rewrite Hs in Hs'; try discriminate;
  unfold after_status in *;
  try (rewrite E in C; rewrite E' in C'; injection C as <- Hr; injection C' as <- Hr';
       rewrite Hr in Hr'; try discriminate).
  - injection Hs' as <-.
    exists [ReplyText MSG_STATUS], [], (@Raise unit e).
    rewrite (app_nil_r (heap w)), (app_nil_r (heap w')). split; reflexivity.
  - injection Hs' as <-. cbn [heap trace] in *.
    exists (([ReplyText MSG_STATUS] ++ tc) ++
            [EditMessageText (message_chat_id u) sid MSG_DOWNLOAD_FAILED]), new,
           (tg_edit_message_text tg (message_chat_id u) sid MSG_DOWNLOAD_FAILED).
    split; rewrite <- !app_assoc; reflexivity.
  - injection Hs' as <-. cbn [heap trace] in *.
    apply app_inv_head in Hh. apply app_inv_head in Hh'. subst new.
    assert (Hb : forall h t0, nth_error (heap (mkWorld (h ++ [fresh_buffer url r2]) t0)) (length h)
                              = Some (fresh_buffer url r2))
      by (intros; apply nth_error_alloc).
    rewrite (deliver_runs tg u sid _ _ _ _ (Hb (heap w) _)).
    rewrite (deliver_runs tg u sid _ _ _ _ (Hb (heap w') _)).
    cbn [heap trace]. rewrite !heap_set_alloc. rewrite Hlen.
    destruct (tg_reply_audio tg _ _) as [[]|e];
      [destruct (tg_edit_message_text tg _ _ _) as [[]|e]|];
      do 3 eexists; split; rewrite <- ?app_assoc; reflexivity.
  - injection Hs' as <-. injection Hr' as <-. cbn [heap trace] in *.
    exists ([ReplyText MSG_STATUS] ++ tc), new, (@Raise unit e).
    split; rewrite <- !app_assoc; reflexivity.
Qed.

(** X15. Each message is handled on its own: the handler reads nothing of
    what earlier messages left, neither the trace nor the buffers.  From two
    worlds that hold as many buffers (their number names the next one), it
    makes the same calls, allocates the same buffers and ends the same way. *)
Theorem handler_reads_no_earlier_state key net tg u w w' :
  length (heap w) = length (heap w') ->
  exists t new r,
    handle_message key net tg u w = (mkWorld (heap w ++ new) (trace w ++ t), r) /\
    handle_message key net tg u w' = (mkWorld (heap w' ++ new) (trace w' ++ t), r).
Proof.
  intros Hlen. unfold handle_message.
  destruct u as [u|].
  2:{ exists [], [], (Raise AttributeError). unfold raise. rewrite !app_nil_r.
      destruct w, w'. split; reflexivity. }
  assert (Hskip : exists t new r,
             @ret unit tt w = (mkWorld (heap w ++ new) (trace w ++ t), r) /\
             @ret unit tt w' = (mkWorld (heap w' ++ new) (trace w' ++ t), r)).
  { exists [], [], (Ok tt). unfold ret. rewrite !app_nil_r. destruct w, w'. split; reflexivity. }
  destruct (message_text u) as [[|c text']|]; try exact Hskip. clear Hskip.
  destruct (Re.search SPOTIFY_URL_PATTERN (c :: text')) as [mo|].
  - apply process_frame. exact Hlen.
  - unfold reply_text, emit, lift, bind, ret. simpl_m.
    exists [ReplyText MSG_NOT_A_LINK], [].
    rewrite (app_nil_r (heap w)), (app_nil_r (heap w')).
    destruct (tg_reply_text tg MSG_NOT_A_LINK); eexists; split; reflexivity.
Qed.

Lemma handler_reads_no_earlier_state_witness :
  let u := mkUpdate (Some (L "https://open.spotify.com/track/abc123")) 1 in
  let net := service_ok [Byte.x49; Byte.x44; Byte.x33] in
  let w := after_status empty_world in
  exists t new r,
    handle_message None net chat_ok u w = (mkWorld (heap w ++ new) (trace w ++ t), r) /\
    handle_message None net chat_ok u empty_world =
      (mkWorld (heap empty_world ++ new) (trace empty_world ++ t), r).
Proof.
  exact (handler_reads_no_earlier_state None (service_ok [Byte.x49; Byte.x44; Byte.x33]) chat_ok
           (mkUpdate (Some (L "https://open.spotify.com/track/abc123")) 1)
           (after_status empty_world) empty_world eq_refl).
Defined.

(** * The start-up and the session *)

Lemma starts_polling_main token api_key :
  starts_polling (main token api_key) = is_set token && is_set api_key.
Proof. destruct token as [[|c t]|], api_key as [[|c' k]|]; reflexivity. Qed.

(** The POSTs of a sequence of text events: each goes to the conversion
    endpoint, with the key the handler was given and a URL of the grammar. *)
Lemma handle_all_posts key steps : forall w,
  exists t,
    trace (handle_all key steps w) = trace w ++ t /\
    forall e k h urls timeout,
      In (HttpPost e k h urls timeout) t ->
      k = key /\ e = DOWNLOAD_API_ENDPOINT /\ h = DOWNLOAD_API_HOST /\
      url_grammar urls /\ timeout = 30%Z.
Proof.
  induction steps as [|s steps IH]; intros w; cbn [handle_all].
  - exists []. split; [symmetry; apply app_nil_r|]. intros e k h urls timeout [].
  - destruct (handle_facts key (step_net s) (step_tg s) (step_update s) w)
      as (t1 & new & H1 & _ & _ & H4 & _).
    destruct (IH (fst (handle_message key (step_net s) (step_tg s) (step_update s) w)))
      as (t2 & H2 & Hp2).
    exists (t1 ++ t2). split; [rewrite H2, H1, app_assoc; reflexivity|].
    intros e k h urls timeout Hin. apply in_app_or in Hin.
    destruct Hin as [Hin|Hin]; [|exact (Hp2 _ _ _ _ _ Hin)].
    assert (Hin' : In (HttpPost e k h urls timeout) (requests_of t1)).
    { apply filter_In. split; [exact Hin|reflexivity]. }
    destruct H4
      as [E|(u & text & mo & pre & post & sid & rest & _ & _ & _ & _ & Hm & _ & E & Hrest)];
      rewrite E in Hin'; [destruct Hin'|].
    destruct Hin' as [H|Hin'].
    + injection H as <- <- <- <- <-. repeat split. apply pattern_grammar. exact Hm.
    + destruct Hrest as [->|(l & p & ->)]; [destruct Hin'|].
      destruct Hin' as [H|[]]. discriminate.
Qed.

(** X16. No request leaves without credentials.  When a credential is
    missing (unset or empty) the bot does nothing at all; when it runs, every
    POST it issues over any sequence of text events, whatever the service
    and the chat platform answer during each of them, goes to the conversion
    endpoint, carries the API key of the environment, which is then not empty,
    and a URL of the grammar, with the timeout of 30. *)
Theorem bot_requests_are_authenticated token api_key steps w :
  exists t,
    trace (bot token api_key steps w) = trace w ++ t /\
    (is_set token && is_set api_key = false -> bot token api_key steps w = w /\ t = []) /\
    forall e k h urls timeout,
      In (HttpPost e k h urls timeout) t ->
      is_set k = true /\ k = api_key /\ is_set token = true /\
      e = DOWNLOAD_API_ENDPOINT /\ h = DOWNLOAD_API_HOST /\
      url_grammar urls /\ timeout = 30%Z.
Proof.
  unfold bot. rewrite starts_polling_main.
  destruct (is_set token && is_set api_key) eqn:Hset.
  - apply andb_true_iff in Hset. destruct Hset as [Htok Hkey].
    destruct (handle_all_posts api_key steps w) as (t & Ht & Hp).
    exists t. split; [exact Ht|]. split; [discriminate|].
    intros e k h urls timeout Hin.
    destruct (Hp _ _ _ _ _ Hin) as (-> & -> & -> & Hg & ->).
    repeat split; assumption.
  - exists []. split; [symmetry; apply app_nil_r|]. split; [auto|].
    intros e k h urls timeout [].
Qed.

(** * Two more properties of the two phases *)

(** X17. Only the JSON literal [true] is an error flag.  When the Phase-1
    answer has an [error] field of another value, also a truthy one such as
    [1] or the string ["true"], and a non-empty [url] and [payload], the
    client goes on to Phase 2 and fetches from that location with that
    token. *)
Theorem only_literal_true_is_an_error_flag key net url w r1 fields :
  net_post net DOWNLOAD_API_ENDPOINT url = Ok r1 ->
  ((400 <=? status_code r1) && (status_code r1 <? 600))%Z = false ->
  json_body r1 = Ok (JObj fields) ->
  dict_get fields (L "error") JNull <> JBool true ->
  truthy (dict_get fields (L "url") JNull) = true ->
  truthy (dict_get fields (L "payload") JNull) = true ->
  exists t,
    trace (fst (call_download_api key net url w)) = trace w ++ t /\
    In (HttpGet (dict_get fields (L "url") JNull) (dict_get fields (L "payload") JNull) 60) t.
Proof.
  intros Hpost Hst1 Hjson Hflag Hurl Hpay.
  assert (Herr : is_True (dict_get fields (L "error") JNull) = false).
  { destruct (dict_get fields (L "error") JNull) as [|[]| | | |]; try reflexivity.
    exfalso. apply Hflag. reflexivity. }
  unfold_m. simpl_m.
  rewrite Hpost. simpl_m. rewrite Hst1. simpl_m. rewrite Hjson. simpl_m.
  rewrite Herr. simpl_m. rewrite Hurl. simpl_m. rewrite Hpay. simpl_m.
  destruct (net_get net _ _) as [r2|e]; simpl_m;
    [destruct ((400 <=? stream_status r2)%Z && (stream_status r2 <? 600)%Z); simpl_m;
     [destruct (stream_body r2); simpl_m
     |destruct (stream_body r2) as [body|e]; simpl_m;
      [destruct (Qgt_bool _ _); simpl_m;
       rewrite ?nth_error_alloc; simpl_m;
       rewrite ?heap_set_alloc, ?nth_error_alloc; simpl_m;
       rewrite ?heap_set_alloc; simpl_m
      |destruct e; simpl_m]]
    |destruct e; simpl_m];
    (eexists; split; [rewrite <- ?app_assoc; reflexivity|simpl; tauto]).
Qed.

Lemma only_literal_true_is_an_error_flag_witness :
  let url := L "https://open.spotify.com/track/abc123" in
  let fields := [(L "error", JStr (L "true"));
                 (L "url", JStr (L "https://cdn.example/file"));
                 (L "payload", JStr (L "token"))] in
  let net := mkNetwork (fun _ _ => Ok (mkResponse 200 [] (Ok (JObj fields))))
                       (fun _ _ => Ok (mkResponse 200 [Byte.x49] (Raise JSONDecodeError))) in
  exists t,
    trace (fst (call_download_api None net url empty_world)) = trace empty_world ++ t /\
    In (HttpGet (dict_get fields (L "url") JNull) (dict_get fields (L "payload") JNull) 60) t.
Proof.
  intros url fields net.
  apply (only_literal_true_is_an_error_flag None net url empty_world
           (mkResponse 200 [] (Ok (JObj fields))) fields); try reflexivity.
  discriminate.
Defined.


